(** * justRAGit: the retrieval pipeline of [src/main.py]

    A shallow embedding of [embed_text], [index], [queries], [answer_query]
    and the interactive loop of [src/main.py].  Python values coming back
    from the embedding service and from the vector store are dynamically
    typed dictionaries; they are embedded as the type [value].  Exceptions
    are explicit ([Raise]), and the module's globals, the store behind
    [client] and everything printed live in the record [world] that every
    statement threads. *)

From Stdlib Require Import QArith.
From stdpp Require Import gmap strings list fin_maps pretty.
From Stdlib Require Import Sorting.Sorted.

Local Open Scope string_scope.
Local Open Scope list_scope.
Local Open Scope Z_scope.
Local Set Warnings "-register-all".

(** ** Python values *)

(** What [json()] and the store client hand back: numbers (JSON numerals,
    as rationals), strings, booleans, [None], lists and string-keyed
    dictionaries. *)
Inductive value : Type :=
| VNone
| VBool (b : bool)
| VNum (q : Q)
| VStr (s : string)
| VList (l : list value)
| VDict (d : gmap string value).

(** A subscript: [v['chunk']] or [v[0]]. *)
Inductive key : Type :=
| KStr (s : string)
| KInt (i : Z).

Inductive exc : Type :=
| KeyError (k : key)
| TypeError
| IndexError
| AttributeError
| ValueError
| EOFError
| SystemExit (code : Z)
| ConnectionError
| StoreError (status : Z).

Inductive result (A : Type) : Type :=
| Ok (a : A)
| Raise (e : exc).
Arguments Ok {A} a.
Arguments Raise {A} e.

#[global] Instance result_ret : MRet result := fun A a => Ok a.
#[global] Instance result_bind : MBind result := fun A B f r =>
  match r with
  | Ok a => f a
  | Raise e => Raise e
  end.

(** ** Subscripts, [dict.get], iteration *)

(** Characters of a string, as Python iterates or indexes them. *)
Fixpoint chars (s : string) : list value :=
  match s with
  | EmptyString => []
  | String a s' => VStr (String a EmptyString) :: chars s'
  end.

(** [l[i]] on a sequence: negative indices count from the end. *)
Definition seq_index (l : list value) (i : Z) : result value :=
  let n := Z.of_nat (length l) in
  let j := if i <? 0 then i + n else i in
  if (j <? 0) || (n <=? j) then Raise IndexError
  else match l !! Z.to_nat j with
       | Some v => Ok v
       | None => Raise IndexError
       end.

(** [v[k]].  A dictionary parsed from JSON has string keys only, so an
    integer subscript is always a missing key. *)
Definition getitem (v : value) (k : key) : result value :=
  match v, k with
  | VDict d, KStr s =>
      match d !! s with
      | Some x => Ok x
      | None => Raise (KeyError k)
      end
  | VDict _, KInt _ => Raise (KeyError k)
  | VList l, KInt i => seq_index l i
  | VStr s, KInt i => seq_index (chars s) i
  | _, _ => Raise TypeError
  end.

(** [v.get(k, default)]: only dictionaries have the method. *)
Definition dict_get (v : value) (k : string) (default : value) : result value :=
  match v with
  | VDict d => Ok (match d !! k with Some x => x | None => default end)
  | _ => Raise AttributeError
  end.

(** [for res in v]: the items a [for] loop visits.  Iterating a dictionary
    yields its keys; their order plays no part below, where the first key
    visited is subscripted with a string and that raises. *)
Definition py_iter (v : value) : result (list value) :=
  match v with
  | VList l => Ok l
  | VStr s => Ok (chars s)
  | VDict d => Ok (VStr <$> (map_to_list d).*1)
  | _ => Raise TypeError
  end.

(** ** [sorted(..., key=lambda x: x[1], reverse=True)] *)

(** Numbers as Python compares them; [True] and [False] are the integers
    1 and 0. *)
Definition num_of (v : value) : option Q :=
  match v with
  | VNum q => Some q
  | VBool b => Some (if b then 1%Q else 0%Q)
  | _ => None
  end.

Definition Qlt_bool (p q : Q) : bool := negb (Qle_bool q p).

(** [a < b] on sort keys.  Numbers are ordered among themselves and
    strings among themselves; a number against anything else, [None] and
    dictionaries raise [TypeError].  Python also orders lists; a list is
    not a certainty the store sends, and it is rendered as [TypeError]
    here. *)
Definition py_lt (a b : value) : result bool :=
  match num_of a, num_of b with
  | Some p, Some q => Ok (Qlt_bool p q)
  | _, _ =>
      match a, b with
      | VStr s, VStr t => Ok (String.ltb s t)
      | _, _ => Raise TypeError
      end
  end.

(** The sort is stable and, with [reverse=True], descending: an item stays
    in front of a later one unless its key is strictly smaller. *)
Fixpoint insert_desc (x : value * value) (l : list (value * value))
  : result (list (value * value)) :=
  match l with
  | [] => Ok [x]
  | y :: l' =>
      b ← py_lt (snd x) (snd y);
      if b : bool then (r ← insert_desc x l'; mret (y :: r))
      else mret (x :: y :: l')
  end.

Fixpoint sorted_reverse (l : list (value * value)) : result (list (value * value)) :=
  match l with
  | [] => Ok []
  | x :: l' => s ← sorted_reverse l'; insert_desc x s
  end.

(** [l[:n]]: a negative bound counts from the end. *)
Definition slice_to {A} (l : list A) (n : Z) : list A :=
  if n <? 0 then take (Z.to_nat (Z.of_nat (length l) + n)) l
  else take (Z.to_nat n) l.

Definition as_str (v : value) : result string :=
  match v with
  | VStr s => Ok s
  | _ => Raise TypeError
  end.

Fixpoint all_str (l : list value) : result (list string) :=
  match l with
  | [] => Ok []
  | v :: l' => s ← as_str v; r ← all_str l'; mret (s :: r)
  end.

(** [sep.join(l)]: every item must be a string. *)
Definition str_join (sep : string) (l : list value) : result string :=
  ss ← all_str l; mret (String.concat sep ss).

Definition nl : string := String (Ascii.ascii_of_nat 10) EmptyString.

(** Lines 155 to 157 of [queries], named after the variables they bind. *)
Definition sorted_results (results_with_scores : list (value * value))
  : result (list (value * value)) :=
  sorted_reverse results_with_scores.

Definition top_p_results (sorted_results : list (value * value)) (top_p : Z)
  : list (value * value) :=
  slice_to sorted_results top_p.

Definition context (top_p_results : list (value * value)) : result string :=
  str_join (nl +:+ nl) (fst <$> top_p_results).

Definition rerank (results_with_scores : list (value * value)) (top_p : Z)
  : result string :=
  s ← sorted_results results_with_scores;
  context (top_p_results s top_p).

Definition cand (c : string * Q) : value * value := (VStr c.1, VNum c.2).

(** Descending stable insertion on typed candidates, the image of
    [sorted_reverse] when every key is a number. *)
Fixpoint insert_cand (x : string * Q) (l : list (string * Q)) : list (string * Q) :=
  match l with
  | [] => [x]
  | y :: l' => if Qlt_bool x.2 y.2 then y :: insert_cand x l' else x :: y :: l'
  end.

Fixpoint sort_cands (l : list (string * Q)) : list (string * Q) :=
  match l with
  | [] => []
  | x :: l' => insert_cand x (sort_cands l')
  end.

(** What a stable sort by score descending is: a rearrangement of the
    candidates, in non-increasing score order, in which the candidates of
    any one score appear in the order they had on input. *)
Definition score_ge (a b : string * Q) : Prop := (b.2 <= a.2)%Q.

Definition same_score (q : Q) (c : string * Q) : bool := Qeq_bool c.2 q.

Definition stable_sort_desc (cands s : list (string * Q)) : Prop :=
  cands ≡ₚ s ∧
  Sorted score_ge s ∧
  ∀ q, List.filter (same_score q) s = List.filter (same_score q) cands.

(** ** The world: globals, the store behind [client], the console *)

(** A class of the vector store: the schema it was created with and the
    objects written to it, oldest first. *)
Record collection := Collection {
  schema : value;
  objects : list value;
}.

(** Every call that reaches the vector store. *)
Inductive request : Type :=
| SchemaExists (name : string)
| SchemaDeleteClass (name : string)
| SchemaCreateClass (cls : value)
| BatchCreate (objs : list (string * value))
| QueryAggregate (name : string)
| QueryGet (name : string) (props : list string) (near : value)
           (limit : Z) (additional : list string).

Record store := Store {
  classes : gmap string collection;
  batch_size : option nat;
  pending : list (string * value);
  requests : list request;
}.

Record world := World {
  collection_name : string;
  api_key : option string;
  client : store;
  stdout : list (list value);
  prompts : list string;
}.

Record http_request := HttpRequest {
  url : string;
  headers : list (string * string);
  json_data : value;
}.

Record http_response := HttpResponse {
  r_status_code : Z;
  r_text : string;
  r_json : result value;
}.

(** The collaborators outside the repository: the HTTP endpoint of the
    embedding service, the store's nearest-vector search, the chat model,
    the PDF loader and the text splitter.  Each may raise. *)
Record services := Services {
  requests_post : http_request -> result http_response;
  near_vector : gmap string collection -> string -> value -> Z -> result value;
  chat : string -> result string;
  PyPDFLoader_load : string -> result (list string);
  split_text : string -> Z -> Z -> result (list string);
}.

(** Statements: a world in, an outcome and a world out.  A raised exception
    keeps the effects made before it. *)
Definition M (A : Type) : Type := world -> result A * world.

#[global] Instance M_ret : MRet M := fun A a w => (Ok a, w).
#[global] Instance M_bind : MBind M := fun A B f m w =>
  match m w with
  | (Ok a, w') => f a w'
  | (Raise e, w') => (Raise e, w')
  end.

Definition lift {A} (r : result A) : M A := fun w => (r, w).
Definition raise {A} (e : exc) : M A := fun w => (Raise e, w).
Definition get_world : M world := fun w => (Ok w, w).

Definition set_client (w : world) (c : store) : world :=
  World (collection_name w) (api_key w) c (stdout w) (prompts w).

Definition add_stdout (w : world) (args : list value) : world :=
  World (collection_name w) (api_key w) (client w) (stdout w ++ [args]) (prompts w).

Definition add_prompt (w : world) (p : string) : world :=
  World (collection_name w) (api_key w) (client w) (stdout w) (prompts w ++ [p]).

Definition print (args : list value) : M unit := fun w => (Ok tt, add_stdout w args).

Definition log_prompt (p : string) : M unit := fun w => (Ok tt, add_prompt w p).

Definition log_request (r : request) : M unit := fun w =>
  let c := client w in
  (Ok tt, set_client w (Store (classes c) (batch_size c) (pending c)
                              (requests c ++ [r]))).

Definition set_classes (m : gmap string collection) : M unit := fun w =>
  let c := client w in
  (Ok tt, set_client w (Store m (batch_size c) (pending c) (requests c))).

Definition set_pending (p : list (string * value)) : M unit := fun w =>
  let c := client w in
  (Ok tt, set_client w (Store (classes c) (batch_size c) p (requests c))).

(** ** The vector store client *)

(** Modelled from the spec: the vector store client that
    [database.create_client] returns is not part of the sources; its
    operations follow the interface the spec lists (existence check,
    create, delete by name, batched insertion with a configurable batch
    size, nearest-vector query, aggregate count). *)
Definition schema_exists (name : string) : M bool :=
  _ ← log_request (SchemaExists name);
  w ← get_world;
  mret (bool_decide (is_Some (classes (client w) !! name))).

(** Modelled from the spec: delete by name; the class goes with all its
    objects. *)
Definition schema_delete_class (name : string) : M unit :=
  _ ← log_request (SchemaDeleteClass name);
  w ← get_world;
  set_classes (delete name (classes (client w))).

(** Modelled from the spec: create; the new class is empty.  Creating a
    class that exists, or one without a name, is refused. *)
Definition schema_create_class (cls : value) : M unit :=
  _ ← log_request (SchemaCreateClass cls);
  w ← get_world;
  match getitem cls (KStr "class") with
  | Ok (VStr name) =>
      match classes (client w) !! name with
      | Some _ => raise (StoreError 422)
      | None => set_classes (<[name := Collection cls []]> (classes (client w)))
      end
  | _ => raise (StoreError 422)
  end.

(** Modelled from the spec: the configurable batch size. *)
Definition batch_configure (n : nat) : M unit := fun w =>
  let c := client w in
  (Ok tt, set_client w (Store (classes c) (Some n) (pending c) (requests c))).

Definition add_object (m : gmap string collection) (o : string * value)
  : gmap string collection :=
  alter (fun c => Collection (schema c) (objects c ++ [o.2])) o.1 m.

(** Modelled from the spec: one batch request; everything pending is
    written, in order, each object to its class. *)
Definition batch_send : M unit :=
  w ← get_world;
  let objs := pending (client w) in
  _ ← log_request (BatchCreate objs);
  _ ← set_classes (foldl add_object (classes (client w)) objs);
  set_pending [].

(** Modelled from the spec: leaving the [with client.batch] block sends
    what is still queued, if anything. *)
Definition batch_flush : M unit :=
  w ← get_world;
  match pending (client w) with
  | [] => mret tt
  | _ :: _ => batch_send
  end.

(** Modelled from the spec: [batch.add_data_object] queues the object,
    and the queue is sent as soon as it holds [batch_size] objects. *)
Definition batch_add_data_object (data_object : value) (class_name : string)
  : M unit :=
  w ← get_world;
  let p := pending (client w) ++ [(class_name, data_object)] in
  _ ← set_pending p;
  match batch_size (client w) with
  | Some n => if bool_decide (n ≤ length p)%nat then batch_send else mret tt
  | None => mret tt
  end.

(** Modelled from the spec: the aggregate count of a class, in the
    response dictionary that [index] prints. *)
Definition count_response (name : string) (n : nat) : value :=
  VDict {[ "data" := VDict {[ "Aggregate" := VDict {[ name :=
    VList [VDict {[ "meta" := VDict {[ "count" := VNum (inject_Z (Z.of_nat n)) ]} ]}] ]} ]} ]}.

Definition aggregate_response (m : gmap string collection) (name : string) : value :=
  match m !! name with
  | Some c => count_response name (length (objects c))
  | None => VDict {[ "errors" := VList [] ]}
  end.

Definition query_aggregate_count (name : string) : M value :=
  _ ← log_request (QueryAggregate name);
  w ← get_world;
  mret (aggregate_response (classes (client w)) name).

Section Pipeline.
Context (E : services).

(** Modelled from the spec: the nearest-vector query reads the classes
    and answers with a response dictionary; it changes nothing. *)
Definition query_get (name : string) (props : list string) (near : value)
    (limit : Z) (additional : list string) : M value :=
  _ ← log_request (QueryGet name props near limit additional);
  w ← get_world;
  lift (near_vector E (classes (client w)) name near limit).

(** ** [embed_text] *)

Definition bearer (k : option string) : string :=
  "Bearer " +:+ match k with Some s => s | None => "None" end.

(** The request [requests.post] is called with. *)
Definition embedding_request (k : option string) (text : string) : http_request :=
  let url := "https://api.openai.com/v1/embeddings" in
  let headers := [("Authorization", bearer k);
                  ("Content-Type", "application/json")] in
  let data := VDict {[ "model" := VStr "text-embedding-3-small";
                       "input" := VStr text ]} in
  HttpRequest url headers data.

(** A non-200 answer is printed; the function then falls off its end and
    so returns [None]. *)
Definition embed_text (text : string) : M value :=
  w ← get_world;
  response ← lift (requests_post E (embedding_request (api_key w) text));
  if r_status_code response =? 200 then
    body ← lift (r_json response);
    embeddings ← lift (getitem body (KStr "data"));
    mret embeddings
  else
    _ ← print [VStr "Failed to get embeddings:";
               VNum (inject_Z (r_status_code response));
               VStr (r_text response)];
    mret VNone.

(** ** [index] *)

Definition docLoader (filename : string) : result (list string) :=
  PyPDFLoader_load E filename.

Definition chunkRecursively (text : string) (chunk_size chunk_overlap : Z)
  : result (list string) :=
  split_text E text chunk_size chunk_overlap.

(** Lines 72 to 74: one chunk group per page of the document. *)
Fixpoint chunk_pages (pages : list string) (chunk_size chunk_overlap : Z)
  : result (list (list string)) :=
  match pages with
  | [] => Ok []
  | doc :: rest =>
      item ← chunkRecursively doc chunk_size chunk_overlap;
      items ← chunk_pages rest chunk_size chunk_overlap;
      mret (item :: items)
  end.

Definition chunked_doc (filename : string) (chunk_size chunk_overlap : Z)
  : result (list (list string)) :=
  pages ← docLoader filename;
  chunk_pages pages chunk_size chunk_overlap.

Definition chunk_class (collection_name : string) : value :=
  VDict {[
    "class" := VStr collection_name;
    "properties" := VList [
      VDict {[ "name" := VStr "chunk"; "dataType" := VList [VStr "text"] ]};
      VDict {[ "name" := VStr "chunk_index"; "dataType" := VList [VStr "int"] ]} ];
    "vectorizer" := VStr "text2vec-openai";
    "moduleConfig" := VDict {[ "text2vec-openai" := VDict {[
      "model" := VStr "text-embedding-3-small";
      "dimensions" := VNum 1536;
      "tokenization" := VBool true ]} ]} ]}.

Definition data_object (chunk : string) (i : nat) : value :=
  VDict {[ "chunk" := VStr chunk;
           "chunk_index" := VNum (inject_Z (Z.of_nat i)) ]}.

(** [for i, chunk in enumerate(vector_store)], counting from [i]. *)
Fixpoint add_chunks (name : string) (i : nat) (vector_store : list string)
  : M unit :=
  match vector_store with
  | [] => mret tt
  | chunk :: rest =>
      _ ← batch_add_data_object (data_object chunk i) name;
      add_chunks name (S i) rest
  end.

(** The part of [index] that talks to the store, from the flattened chunk
    list on (lines 81 to 118).  Nothing is returned. *)
Definition index_chunks (vector_store : list string) : M value :=
  w ← get_world;
  let name := collection_name w in
  b ← schema_exists name;
  _ ← (if b : bool then schema_delete_class name else mret tt);
  _ ← schema_create_class (chunk_class name);
  _ ← batch_configure 100;
  _ ← add_chunks name 0 vector_store;
  _ ← batch_flush;
  _ ← print [VStr "Data indexed successfully!"];
  response ← query_aggregate_count name;
  _ ← print [response];
  mret VNone.

Definition index (filename : string) (chunk_size chunk_overlap : Z) : M value :=
  groups ← lift (chunked_doc filename chunk_size chunk_overlap);
  let vector_store := concat groups in
  index_chunks vector_store.

(** ** [queries] *)

(** The body of the [for] loop under [try] (lines 146 to 150). *)
Fixpoint results_loop (items : list value) (acc : list (value * value))
  : result (list (value * value)) :=
  match items with
  | [] => Ok acc
  | res :: rest =>
      chunk ← getitem res (KStr "chunk");
      additional ← dict_get res "additional" (VDict ∅);
      certainty ← dict_get additional "certainty" (VNum 0);
      results_loop rest (acc ++ [(chunk, certainty)])
  end.

Definition results_with_scores (collection_name : string) (result' : value)
  : result (list (value * value)) :=
  d ← getitem result' (KStr "data");
  g ← getitem d (KStr "Get");
  hits ← getitem g (KStr collection_name);
  items ← py_iter hits;
  results_loop items [].

(** [str(e)] for a [KeyError]: the [repr] of the key (for a string key
    without quotes or escapes, as the keys looked up here are). *)
Definition repr_key (k : key) : string :=
  match k with
  | KStr s => "'" +:+ s +:+ "'"
  | KInt i => pretty i
  end.

Definition key_error_message : string :=
  "Failed to process results due to key error.".

(** Lines 140 to 142: embed the query and ask the store for its
    [top_k] nearest chunks. *)
Definition retrieve (query : string) (top_k : Z) : M value :=
  e ← embed_text query;
  e0 ← lift (getitem e (KInt 0));
  embedding ← lift (getitem e0 (KStr "embedding"));
  let q_embeddings := VDict {[ "vector" := embedding ]} in
  w ← get_world;
  query_get (collection_name w) ["chunk"] q_embeddings top_k ["certainty"].

Definition queries (query : string) (top_k top_p : Z) : M string :=
  result ← retrieve query top_k;
  w ← get_world;
  match results_with_scores (collection_name w) result with
  | Raise (KeyError k) =>
      _ ← print [VStr ("Key error encountered: " +:+ repr_key k)];
      mret key_error_message
  | Raise e => raise e
  | Ok rws => lift (rerank rws top_p)
  end.

(** ** [answer_query] and the interactive loop *)

Definition render_prompt (question context : string) : string :=
  "You are an assistant for question-answering tasks. Use the following pieces of retrieved context to answer the question.          If you don't know the answer, just say that you don't know. Use three sentences maximum and keep the answer concise."
  +:+ nl +:+ "    Question: " +:+ question
  +:+ nl +:+ "    Context: " +:+ context
  +:+ nl +:+ "    Answer:"
  +:+ nl +:+ "    ".

Definition answer_query (query context : string) : M string :=
  let prompt := render_prompt query context in
  _ ← log_prompt prompt;
  lift (chat E prompt).

Definition input_prompt : list value :=
  [VStr "Enter your query (or 'q' to quit): "].

(** [while True] over the lines typed at the prompt; reading past the last
    line is an [EOFError]. *)
Fixpoint repl (top_k : Z) (inputs : list string) : M unit :=
  _ ← print input_prompt;
  match inputs with
  | [] => raise EOFError
  | query :: rest =>
      if bool_decide (query = "q") then print [VStr "Exiting..."]
      else
        context ← queries query top_k 4;
        answer ← answer_query query context;
        _ ← print [VStr answer];
        repl top_k rest
  end.


End Pipeline.

(** ** Vocabulary of the statements *)

(** The candidate a well-formed hit stands for: its chunk, with its
    certainty when it has one and 0 when it has none (no [additional]
    entry, or an [additional] dictionary without [certainty]). *)
Inductive hit_candidate : value -> value * value -> Prop :=
| hit_scored d a c q :
    d !! "chunk" = Some c ->
    d !! "additional" = Some (VDict a) ->
    a !! "certainty" = Some q ->
    hit_candidate (VDict d) (c, q)
| hit_no_additional d c :
    d !! "chunk" = Some c ->
    d !! "additional" = None ->
    hit_candidate (VDict d) (c, VNum 0)
| hit_no_certainty d a c :
    d !! "chunk" = Some c ->
    d !! "additional" = Some (VDict a) ->
    a !! "certainty" = None ->
    hit_candidate (VDict d) (c, VNum 0).

Definition lacks_certainty (res : value) : Prop :=
  match res with
  | VDict d =>
      match d !! "additional" with
      | None => True
      | Some (VDict a) => a !! "certainty" = None
      | Some _ => False
      end
  | _ => False
  end.

(** The store's answer to a search of class [name]. *)
Definition envelope (name : string) (hits : value) : value :=
  VDict {[ "data" := VDict {[ "Get" := VDict {[ name := hits ]} ]} ]}.

(** A malformed response: the envelope lacks ['data'], ['Get'] or the
    class name, or a hit, after well-formed ones, lacks ['chunk']. *)
Inductive missing_key (name : string) : value -> string -> Prop :=
| missing_data d :
    d !! "data" = None ->
    missing_key name (VDict d) "data"
| missing_Get d dd :
    d !! "data" = Some (VDict dd) ->
    dd !! "Get" = None ->
    missing_key name (VDict d) "Get"
| missing_class d dd g :
    d !! "data" = Some (VDict dd) ->
    dd !! "Get" = Some (VDict g) ->
    g !! name = None ->
    missing_key name (VDict d) name
| missing_chunk d dd g before h after cs :
    d !! "data" = Some (VDict dd) ->
    dd !! "Get" = Some (VDict g) ->
    g !! name = Some (VList (before ++ VDict h :: after)) ->
    Forall2 hit_candidate before cs ->
    h !! "chunk" = None ->
    missing_key name (VDict d) "chunk".

(** What the [except] branch prints for a missing key [k]. *)
Definition key_error_line (k : string) : list value :=
  [VStr ("Key error encountered: '" +:+ k +:+ "'")].

(** The store after one batch request, after an object is queued, and
    after the queue is flushed: what [batch_send],
    [batch_add_data_object] and [batch_flush] do to the client. *)
Definition sent (c : store) : store :=
  Store (foldl add_object (classes c) (pending c)) (batch_size c) []
        (requests c ++ [BatchCreate (pending c)]).

Definition enqueue (c : store) (o : string * value) : store :=
  let c' := Store (classes c) (batch_size c) (pending c ++ [o]) (requests c) in
  match batch_size c with
  | Some n => if bool_decide (n ≤ length (pending c'))%nat then sent c' else c'
  | None => c'
  end.

Definition flushed (c : store) : store :=
  match pending c with
  | [] => c
  | _ :: _ => sent c
  end.

(** The objects [index] builds from the flattened chunk list, numbered
    from [i]. *)
Definition chunk_objects (i : nat) (vector_store : list string) : list value :=
  imap (fun j chunk => data_object chunk (i + j)) vector_store.

(** The class as [index] recreates it, before any chunk is written. *)
Definition recreated (w : world) : store :=
  let name := collection_name w in
  let c := client w in
  Store (<[name := Collection (chunk_class name) []]> (classes c))
        (Some 100%nat) (pending c)
        (requests c ++ [SchemaExists name]
           ++ (if bool_decide (is_Some (classes c !! name))
               then [SchemaDeleteClass name] else [])
           ++ [SchemaCreateClass (chunk_class name)]).

(** The line [embed_text] prints for a response that is not a 200, and
    what it is for an embedding request to fail: the HTTP call raises, or
    the status is not 200. *)
Definition embedding_failure_line (response : http_response) : list value :=
  [VStr "Failed to get embeddings:";
   VNum (inject_Z (r_status_code response));
   VStr (r_text response)].

Definition embedding_failed (r : result http_response) : Prop :=
  match r with
  | Ok response => r_status_code response ≠ 200
  | Raise _ => True
  end.

(** A store that was only read: same classes, same queue, same batch
    size, and nothing but searches added to its request log. *)
Definition is_search (r : request) : Prop :=
  match r with
  | QueryGet _ _ _ _ _ => True
  | _ => False
  end.

Definition read_only (c c' : store) : Prop :=
  classes c' = classes c ∧
  pending c' = pending c ∧
  batch_size c' = batch_size c ∧
  ∃ added, requests c' = requests c ++ added ∧ Forall is_search added.

(** Batches of a fixed size [n]: none is empty or longer than [n], and
    every batch but the last holds exactly [n] objects. *)
Definition fixed_size_batches {A} (n : nat) (bs : list (list A)) : Prop :=
  Forall (fun b => 0 < length b ≤ n)%nat bs ∧
  ∀ i b, bs !! i = Some b → (S i < length bs)%nat → length b = n.

(** * [src/rag_demo.py]: text extraction, chunking and search

    The demo's pure helpers.  A text is the sequence of its code points,
    so that [str.split()] can be given its exact separator set.  (The
    demo's own [index_chunks] is not modelled; the definition of that
    name above is the store part of [index] in [src/main.py].) *)

(** [str.isspace] on one code point. *)
Definition is_space (c : N) : bool :=
  ((9 <=? c) && (c <=? 13) || (28 <=? c) && (c <=? 32)
   || (c =? 133) || (c =? 160) || (c =? 5760)
   || (8192 <=? c) && (c <=? 8202)
   || (c =? 8232) || (c =? 8233) || (c =? 8239) || (c =? 8287)
   || (c =? 12288))%N.

(** [text.split()]: the maximal runs of non-space code points, in order;
    [cur] is the run being read. *)
Fixpoint split_ws_aux (cur : list N) (s : list N) : list (list N) :=
  match s with
  | [] => match cur with [] => [] | _ :: _ => [cur] end
  | c :: s' =>
      if is_space c then
        match cur with
        | [] => split_ws_aux [] s'
        | _ :: _ => cur :: split_ws_aux [] s'
        end
      else split_ws_aux (cur ++ [c]) s'
  end.

Definition split_ws (s : list N) : list (list N) := split_ws_aux [] s.

(** [sep.join(parts)] on texts. *)
Fixpoint join_with (sep : list N) (parts : list (list N)) : list N :=
  match parts with
  | [] => []
  | [w] => w
  | w :: rest => w ++ sep ++ join_with sep rest
  end.

(** [range(start, stop, step)]; a zero step is a [ValueError]. *)
Fixpoint range_from (fuel : nat) (i stop step : Z) : list Z :=
  match fuel with
  | O => []
  | S f =>
      if (if 0 <? step then i <? stop else stop <? i)
      then i :: range_from f (i + step) stop step
      else []
  end.

Definition py_range (start stop step : Z) : result (list Z) :=
  if step =? 0 then Raise ValueError
  else Ok (range_from (Z.to_nat (Z.abs (stop - start))) start stop step).

(** [l[i:j]]: negative bounds count from the end, and bounds are clamped
    to the list. *)
Definition clamp (len k : Z) : Z :=
  if k <? 0 then Z.max (k + len) 0 else Z.min k len.

Definition py_slice {A} (l : list A) (i j : Z) : list A :=
  let len := Z.of_nat (length l) in
  let a := clamp len i in
  let b := clamp len j in
  take (Z.to_nat (b - a)) (drop (Z.to_nat a) l).

Definition space : list N := [32%N].
Definition newline : list N := [10%N].

(** [chunk_text(text, size)]; the source's default for [size] is 200. *)
Definition chunk_text (text : list N) (size : Z) : result (list (list N)) :=
  let words := split_ws text in
  match py_range 0 (Z.of_nat (length words)) size with
  | Ok idxs =>
      Ok ((fun i => join_with space (py_slice words i (i + size))) <$> idxs)
  | Raise e => Raise e
  end.

(** [extract_text_from_pdf]: a page is given by what its [extract_text()]
    returns, [None] for a page without text. *)
Definition extract_text_from_pdf (pages : list (option (list N))) : list N :=
  join_with newline (omap id pages).

(** The list comprehension of [search_weaviate] over the store's
    response. *)
Fixpoint hit_texts (hits : list value) : result (list value) :=
  match hits with
  | [] => Ok []
  | hit :: rest =>
      t ← getitem hit (KStr "text");
      ts ← hit_texts rest;
      mret (t :: ts)
  end.

(** [search_weaviate(query, top_k)], over the demo's two calls to the
    store: the vectorizer ([get_vector]) and the query ([do_query]). *)
Definition search_weaviate (get_vector : string -> result value)
    (do_query : value -> Z -> result value) (query : string) (top_k : Z)
  : result (list value) :=
  vector ← get_vector query;
  result' ← do_query vector top_k;
  d ← getitem result' (KStr "data");
  g ← getitem d (KStr "Get");
  hits ← getitem g (KStr "DocumentChunk");
  items ← py_iter hits;
  hit_texts items.

(** A hit of the demo's class that carries the text [t]. *)
Definition has_text (hit t : value) : Prop :=
  ∃ d, hit = VDict d ∧ d !! "text" = Some t.

(** A word: a non-empty run of code points without white space. *)
Definition is_word (w : list N) : Prop :=
  w ≠ [] ∧ Forall (fun c => is_space c = false) w.

(** ** Concrete services and worlds *)

(** The text "a b  c", a line break, "d e " as code points. *)
Definition sample_text : list N := [97; 32; 98; 32; 32; 99; 10; 100; 32; 101; 32]%N.


Definition embedding_ok : http_response :=
  HttpResponse 200 "" (Ok (VDict {[ "data" :=
    VList [VDict {[ "embedding" := VList [VNum 0.25; VNum 0.5] ]}] ]})).

Definition embedding_500 : http_response :=
  HttpResponse 500 "Internal Server Error" (Raise ValueError).

Definition demo_services (post : result http_response) (search : result value)
  : services :=
  Services (fun _ => post) (fun _ _ _ _ => search) (fun _ => Ok "I don't know.")
           (fun f => if bool_decide (f = "a.pdf") then Ok ["p1"; "p2"] else Ok ["q1"])
           (fun t _ _ => Ok [t +:+ "-1"; t +:+ "-2"]).

(** The embedding service answers 500. *)
Definition services_embedding_500 : services :=
  demo_services (Ok embedding_500) (Ok (envelope "Article" (VList []))).

Definition services_ok : services :=
  demo_services (Ok embedding_ok) (Ok (envelope "Article" (VList []))).

(** The embedding succeeds and the store answers with an empty
    dictionary. *)
Definition services_malformed : services :=
  demo_services (Ok embedding_ok) (Ok (VDict ∅)).

Definition w_init : world :=
  World "Article" (Some "sk-test") (Store ∅ None [] []) [] [].

(** The sizes of the batch requests in a request log, in order. *)
Definition batch_sizes (rs : list request) : list nat :=
  omap (fun r => match r with
                 | BatchCreate objs => Some (length objs)
                 | _ => None
                 end) rs.

Definition hit (c : string) (q : Q) : value :=
  VDict {[ "chunk" := VStr c;
           "additional" := VDict {[ "certainty" := VNum q ]} ]}.

Definition hit_unscored (c : string) : value := VDict {[ "chunk" := VStr c ]}.

(** A hit given by its text and, when the store sent one, its score; and
    the (text, score) candidate it is read as. *)
Definition typed_hit (h : string * option Q) : value :=
  match h.2 with
  | Some q => hit h.1 q
  | None => hit_unscored h.1
  end.

Definition scored (h : string * option Q) : string * Q := (h.1, default 0%Q h.2).

(** A usable answer of the embedding service: status 200 and a JSON body
    whose ['data'] list starts with an entry that has an ['embedding']. *)
Definition embedding_answer (response : http_response) (embedding : value) : Prop :=
  r_status_code response = 200 ∧
  ∃ d e0 more,
    r_json response = Ok (VDict d) ∧
    d !! "data" = Some (VList (VDict e0 :: more)) ∧
    e0 !! "embedding" = Some embedding.

(** A 200 answer of the embedding service that cannot be used, and the
    exception it leads to. *)
Inductive bad_embedding : http_response -> exc -> Prop :=
| bad_json response e :
    r_status_code response = 200 ->
    r_json response = Raise e ->
    bad_embedding response e
| bad_no_data response d :
    r_status_code response = 200 ->
    r_json response = Ok (VDict d) ->
    d !! "data" = None ->
    bad_embedding response (KeyError (KStr "data"))
| bad_empty_data response d :
    r_status_code response = 200 ->
    r_json response = Ok (VDict d) ->
    d !! "data" = Some (VList []) ->
    bad_embedding response IndexError
| bad_no_embedding response d e0 more :
    r_status_code response = 200 ->
    r_json response = Ok (VDict d) ->
    d !! "data" = Some (VList (VDict e0 :: more)) ->
    e0 !! "embedding" = None ->
    bad_embedding response (KeyError (KStr "embedding")).

(** The world after [queries] has sent its one search. *)
Definition searched (w : world) (embedding : value) (top_k : Z) : world :=
  let c := client w in
  set_client w
    (Store (classes c) (batch_size c) (pending c)
       (requests c ++ [QueryGet (collection_name w) ["chunk"]
                         (VDict {[ "vector" := embedding ]}) top_k ["certainty"]])).

(** The batch sizes for [n] objects sent [k] at a time: as many full
    batches as fit, then the remainder if there is one. *)
Definition batch_plan (k n : nat) : list nat :=
  replicate (n / k) k ++ (if (n mod k =? 0)%nat then [] else [(n mod k)%nat]).

(** A store that already holds another class, and services with a given
    loader and splitter. *)
Definition w_notes : world :=
  World "Article" None
    (Store {[ "Notes" := Collection VNone [VStr "n"] ]} None [] []) [] [].

Definition services_reading (load : string -> result (list string))
    (split : string -> result (list string)) : services :=
  Services (fun _ => Ok embedding_ok)
           (fun _ _ _ _ => Ok (envelope "Article" (VList [])))
           (fun _ => Ok "I don't know.") load (fun t _ _ => split t).

(** The embedding service answers 200 with an empty JSON object. *)
Definition embedding_no_data : http_response :=
  HttpResponse 200 "{}" (Ok (VDict ∅)).

(** A hit whose certainty is any value, and services whose store answers
    a search with the given hits. *)
Definition hit_with (c : string) (certainty : value) : value :=
  VDict {[ "chunk" := VStr c;
           "additional" := VDict {[ "certainty" := certainty ]} ]}.

Definition services_with (hits : value) : services :=
  demo_services (Ok embedding_ok) (Ok (envelope "Article" hits)).

(** * Properties *)

(** ** The re-ranker (lines 155 to 157) *)

Section Rerank.

Implicit Types (c x y : string * Q) (l s cands : list (string * Q)).

Lemma Qlt_bool_true p q : Qlt_bool p q = true ↔ (p < q)%Q.
Proof.
  unfold Qlt_bool. rewrite negb_true_iff, <- not_true_iff_false, Qle_bool_iff.
  split; [apply Qnot_le_lt | apply Qlt_not_le].
Qed.

Lemma Qlt_bool_false p q : Qlt_bool p q = false ↔ (q <= p)%Q.
Proof.
  unfold Qlt_bool. rewrite negb_false_iff. apply Qle_bool_iff.
Qed.

#[local] Instance score_ge_trans : Transitive score_ge.
Proof. intros a b c Hab Hbc. unfold score_ge in *. by eapply Qle_trans. Qed.

Lemma py_lt_cand x y : py_lt (cand x).2 (cand y).2 = Ok (Qlt_bool x.2 y.2).
Proof. reflexivity. Qed.

Lemma insert_desc_cand x l :
  insert_desc (cand x) (cand <$> l) = Ok (cand <$> insert_cand x l).
Proof.
  induction l as [|y l IH]; [done|].
  cbn [fmap list_fmap insert_desc insert_cand]. rewrite py_lt_cand. cbn.
  destruct (Qlt_bool x.2 y.2); [|done].
  fold (@fmap list _ _ _ cand l). rewrite IH. done.
Qed.

Lemma sorted_reverse_cand l :
  sorted_reverse (cand <$> l) = Ok (cand <$> sort_cands l).
Proof.
  induction l as [|x l IH]; [done|].
  cbn [fmap list_fmap sorted_reverse sort_cands].
  fold (@fmap list _ _ _ cand l). rewrite IH. cbn. apply insert_desc_cand.
Qed.

Lemma insert_cand_perm x l : insert_cand x l ≡ₚ x :: l.
Proof.
  induction l as [|y l IH]; [done|]. cbn.
  destruct (Qlt_bool x.2 y.2); [|done].
  rewrite IH. apply Permutation_swap.
Qed.

Lemma sort_cands_perm l : l ≡ₚ sort_cands l.
Proof.
  induction l as [|x l IH]; [done|]. cbn.
  by rewrite insert_cand_perm, <- IH.
Qed.

Lemma insert_cand_hd z x l :
  score_ge z x → HdRel score_ge z l → HdRel score_ge z (insert_cand x l).
Proof.
  intros Hzx Hl. destruct l as [|y l]; cbn; [by constructor|].
  destruct (Qlt_bool x.2 y.2); constructor; [by inversion Hl | done].
Qed.

Lemma insert_cand_sorted x l :
  Sorted score_ge l → Sorted score_ge (insert_cand x l).
Proof.
  induction 1 as [|y l Hs IH Hhd]; cbn; [by repeat constructor|].
  destruct (Qlt_bool x.2 y.2) eqn:Hlt.
  - constructor; [done|]. apply insert_cand_hd; [|done].
    apply Qlt_bool_true in Hlt. by apply Qlt_le_weak.
  - apply Qlt_bool_false in Hlt. repeat constructor; done.
Qed.

Lemma sort_cands_sorted l : Sorted score_ge (sort_cands l).
Proof.
  induction l; cbn; [constructor | by apply insert_cand_sorted].
Qed.

(** A candidate is inserted behind strictly greater scores only, so it
    comes first among those of its own score. *)
Lemma insert_cand_filter q x l :
  List.filter (same_score q) (insert_cand x l)
  = List.filter (same_score q) (x :: l).
Proof.
  induction l as [|y l IH]; [done|].
  cbn [insert_cand]. destruct (Qlt_bool x.2 y.2) eqn:Hlt; [|done].
  cbn [List.filter] in *. rewrite IH.
  destruct (same_score q x) eqn:Hx; [|done].
  destruct (same_score q y) eqn:Hy; [|done].
  exfalso. unfold same_score in *.
  apply Qeq_bool_iff in Hx, Hy. apply Qlt_bool_true in Hlt.
  rewrite Hx, Hy in Hlt. by apply Qlt_irrefl in Hlt.
Qed.

Lemma sort_cands_stable q l :
  List.filter (same_score q) (sort_cands l) = List.filter (same_score q) l.
Proof.
  induction l as [|x l IH]; [done|].
  cbn [sort_cands]. rewrite insert_cand_filter. cbn. by rewrite IH.
Qed.

Lemma sort_cands_spec l : stable_sort_desc l (sort_cands l).
Proof.
  split_and!; [apply sort_cands_perm | apply sort_cands_sorted |].
  intros q. apply sort_cands_stable.
Qed.

Lemma same_score_self c : same_score c.2 c = true.
Proof. unfold same_score. apply Qeq_bool_iff. reflexivity. Qed.

Lemma in_filter_same_score q c l :
  c ∈ List.filter (same_score q) l → c ∈ l ∧ (c.2 == q)%Q.
Proof.
  rewrite list_elem_of_In, filter_In, <- list_elem_of_In.
  unfold same_score. by rewrite Qeq_bool_iff.
Qed.

(** Two sorted lists that agree score by score are the same list. *)
Lemma sorted_filter_unique s1 s2 :
  Sorted score_ge s1 → Sorted score_ge s2 →
  (∀ q, List.filter (same_score q) s1 = List.filter (same_score q) s2) →
  s1 = s2.
Proof.
  intros H1 H2.
  apply Sorted_StronglySorted in H1, H2; try exact score_ge_trans.
  revert s2 H2. induction H1 as [|a s1 Hs1 IH Ha]; intros s2 H2 Hf.
  - destruct s2 as [|b s2]; [done|].
    specialize (Hf b.2). cbn in Hf. by rewrite same_score_self in Hf.
  - destruct H2 as [|b s2 Hs2 Hb].
    { specialize (Hf a.2). cbn in Hf. by rewrite same_score_self in Hf. }
    assert (a = b) as <-.
    { pose proof (Hf a.2) as Hqa. pose proof (Hf b.2) as Hqb.
      cbn in Hqa, Hqb. rewrite same_score_self in Hqa, Hqb.
      destruct (same_score a.2 b) eqn:Hab; [congruence|].
      destruct (same_score b.2 a) eqn:Hba; [congruence|].
      assert (a ∈ s2 ∧ (a.2 == a.2)%Q) as [Hin _].
      { apply in_filter_same_score. rewrite <- Hqa. left. }
      assert (b ∈ s1 ∧ (b.2 == b.2)%Q) as [Hin' _].
      { apply in_filter_same_score. rewrite Hqb. left. }
      rewrite Forall_forall in Ha, Hb.
      apply Hb in Hin. apply Ha in Hin'.
      unfold score_ge, same_score in *.
      apply not_true_iff_false in Hab. exfalso. apply Hab.
      apply Qeq_bool_iff. by apply Qle_antisym. }
    f_equal. apply IH; [done|]. intros q. specialize (Hf q). cbn in Hf.
    destruct (same_score q a); congruence.
Qed.

Lemma stable_sort_desc_unique cands s :
  stable_sort_desc cands s → s = sort_cands cands.
Proof.
  intros (_ & Hs & Hf). apply sorted_filter_unique; [done|apply sort_cands_sorted|].
  intros q. by rewrite Hf, sort_cands_stable.
Qed.

Lemma all_str_texts l : all_str ((cand <$> l).*1) = Ok (l.*1).
Proof.
  induction l as [|[t q] l IH]; [done|].
  cbn [fmap list_fmap all_str cand fst as_str]. cbn.
  fold (@fmap list _ _ _ cand l). fold (@fmap list _ _ _ (@fst value value) (cand <$> l)).
  rewrite IH. done.
Qed.

Lemma context_cands l :
  context (cand <$> l) = Ok (String.concat (nl +:+ nl) (l.*1)).
Proof. unfold context, str_join. by rewrite all_str_texts. Qed.

Lemma slice_to_nonneg {A} (l : list A) n : 0 ≤ n → slice_to l n = take (Z.to_nat n) l.
Proof. intros Hn. unfold slice_to. by rewrite (proj2 (Z.ltb_ge n 0)). Qed.

Lemma top_p_results_cands l top_p :
  0 ≤ top_p →
  top_p_results (cand <$> l) top_p = cand <$> take (Z.to_nat top_p) l.
Proof.
  intros Hp. unfold top_p_results. rewrite slice_to_nonneg by done.
  by rewrite fmap_take.
Qed.

(** The whole step on typed candidates. *)
Lemma rerank_cands cands top_p :
  0 ≤ top_p →
  rerank (cand <$> cands) top_p
  = Ok (String.concat (nl +:+ nl) ((take (Z.to_nat top_p) (sort_cands cands)).*1)).
Proof.
  intros Hp. unfold rerank, sorted_results. rewrite sorted_reverse_cand. cbn.
  rewrite top_p_results_cands by done. apply context_cands.
Qed.

Lemma take_min_length {A} (l : list A) (n : Z) (m : nat) :
  0 ≤ n → length l = m →
  take (Z.to_nat (Z.min n (Z.of_nat m))) l = take (Z.to_nat n) l.
Proof.
  intros Hn <-. destruct (Z.le_ge_cases n (Z.of_nat (length l))).
  - by rewrite Z.min_l.
  - rewrite Z.min_r, Nat2Z.id by done. rewrite !firstn_all2; [done|lia|lia].
Qed.

Lemma sort_cands_length l : length (sort_cands l) = length l.
Proof. symmetry. apply Permutation_length, sort_cands_perm. Qed.

Lemma sorted_sort_cands_id l : Sorted score_ge l → sort_cands l = l.
Proof.
  induction 1 as [|x l Hs IH Hhd]; [done|]. cbn. rewrite IH.
  destruct Hhd as [|y l Hxy]; [done|]. cbn.
  by rewrite (proj2 (Qlt_bool_false _ _) Hxy).
Qed.

Lemma take_sorted n l : Sorted score_ge l → Sorted score_ge (take n l).
Proof.
  intros Hs. revert n. induction Hs as [|x l Hs IH Hhd]; intros [|n]; cbn;
    try constructor; [apply IH|].
  destruct Hhd; destruct n; cbn; by constructor.
Qed.

Lemma rerank_selection cands top_p :
  0 ≤ top_p →
  rerank (top_p_results (cand <$> sort_cands cands) top_p) top_p
  = rerank (cand <$> cands) top_p.
Proof.
  intros Hp. rewrite top_p_results_cands, !rerank_cands by done.
  rewrite sorted_sort_cands_id by apply take_sorted, sort_cands_sorted.
  by rewrite take_take, Nat.min_id.
Qed.

(** C1: for candidates given as (text, score) pairs and [top_p > 0], the
    candidates have exactly one stable sort by score descending (equal
    scores keep their retrieval order), and the re-ranking step returns
    the texts of its first [min(top_p, len(candidates))] entries, in that
    order, joined by two newlines. *)
Theorem rerank_stable_sort_prefix cands top_p :
  0 < top_p →
  ∃ s, stable_sort_desc cands s ∧
       (∀ s', stable_sort_desc cands s' → s' = s) ∧
       rerank (cand <$> cands) top_p
       = Ok (String.concat (nl +:+ nl)
               ((take (Z.to_nat (Z.min top_p (Z.of_nat (length cands)))) s).*1)).
Proof.
  intros Hp. exists (sort_cands cands).
  split_and!; [apply sort_cands_spec | apply stable_sort_desc_unique |].
  rewrite rerank_cands by lia.
  by rewrite (take_min_length _ _ (length cands)) by (lia || apply sort_cands_length).
Qed.

Lemma rerank_stable_sort_prefix_witness :
  0 < 2 ∧
  ∃ s, stable_sort_desc [("x", 0.7%Q); ("y", 0.95%Q); ("z", 0.95%Q)] s ∧
       (∀ s', stable_sort_desc [("x", 0.7%Q); ("y", 0.95%Q); ("z", 0.95%Q)] s'
              → s' = s) ∧
       rerank (cand <$> [("x", 0.7%Q); ("y", 0.95%Q); ("z", 0.95%Q)]) 2
       = Ok (String.concat (nl +:+ nl)
               ((take (Z.to_nat (Z.min 2 (Z.of_nat 3))) s).*1)).
Proof.
  split; [lia|].
  apply (rerank_stable_sort_prefix [("x", 0.7%Q); ("y", 0.95%Q); ("z", 0.95%Q)] 2).
  lia.
Defined.

(** Scenario B of the spec, both ways round. *)
Example scenario_B_y_first :
  rerank (cand <$> [("x", 0.7%Q); ("y", 0.95%Q); ("z", 0.95%Q)]) 2
  = Ok ("y" +:+ nl +:+ nl +:+ "z").
Proof. reflexivity. Qed.

Example scenario_B_z_first :
  rerank (cand <$> [("x", 0.7%Q); ("z", 0.95%Q); ("y", 0.95%Q)]) 2
  = Ok ("z" +:+ nl +:+ nl +:+ "y").
Proof. reflexivity. Qed.

(** C7: re-ranking is idempotent.  For candidates already in descending
    score order and a count [top_p] (not negative), sorting leaves the
    list as it is, the step returns a string, and re-ranking the
    selection it kept with the same [top_p] returns that same string. *)
Theorem rerank_idempotent cands top_p :
  0 ≤ top_p →
  Sorted score_ge cands →
  sorted_results (cand <$> cands) = Ok (cand <$> cands) ∧
  ∃ out, rerank (cand <$> cands) top_p = Ok out ∧
         rerank (top_p_results (cand <$> cands) top_p) top_p = Ok out.
Proof.
  intros Hp Hs. split.
  - unfold sorted_results. by rewrite sorted_reverse_cand, sorted_sort_cands_id.
  - eexists. split; [by apply rerank_cands|].
    rewrite <- (sorted_sort_cands_id cands) at 1 by done.
    rewrite rerank_selection by done. by apply rerank_cands.
Qed.

Lemma rerank_idempotent_witness :
  0 ≤ 2 ∧
  Sorted score_ge [("y", 0.95%Q); ("z", 0.95%Q); ("x", 0.7%Q)] ∧
  sorted_results (cand <$> [("y", 0.95%Q); ("z", 0.95%Q); ("x", 0.7%Q)])
  = Ok (cand <$> [("y", 0.95%Q); ("z", 0.95%Q); ("x", 0.7%Q)]) ∧
  ∃ out, rerank (cand <$> [("y", 0.95%Q); ("z", 0.95%Q); ("x", 0.7%Q)]) 2 = Ok out ∧
         rerank (top_p_results (cand <$> [("y", 0.95%Q); ("z", 0.95%Q); ("x", 0.7%Q)]) 2) 2
         = Ok out.
Proof.
  assert (Sorted score_ge [("y", 0.95%Q); ("z", 0.95%Q); ("x", 0.7%Q)]) as Hs.
  { repeat constructor; unfold score_ge; cbn; by apply Qle_bool_iff. }
  split; [lia|]. split; [exact Hs|].
  apply (rerank_idempotent [("y", 0.95%Q); ("z", 0.95%Q); ("x", 0.7%Q)] 2); [lia|exact Hs].
Defined.

(** C8: re-ranking no candidates returns the empty string and raises
    nothing, whatever [top_p] is. *)
Theorem rerank_empty top_p : rerank [] top_p = Ok "".
Proof.
  unfold rerank, sorted_results, top_p_results, slice_to. cbn.
  by destruct (top_p <? 0); rewrite take_nil.
Qed.

End Rerank.

(** ** Processing the store's response (lines 144 to 153) *)

Section Retrieval.

Lemma hit_candidate_step res cand rest acc :
  hit_candidate res cand →
  results_loop (res :: rest) acc = results_loop rest (acc ++ [cand]).
Proof.
  intros [d a c q Hc Ha Hq | d c Hc Ha | d a c Hc Ha Hq];
    cbn; rewrite Hc; cbn; rewrite Ha; cbn; by rewrite ?Hq.
Qed.

Lemma results_loop_candidates hits cs acc :
  Forall2 hit_candidate hits cs →
  results_loop hits acc = Ok (acc ++ cs).
Proof.
  intros H. revert acc. induction H as [|res c hits cs Hc _ IH]; intros acc.
  - by rewrite app_nil_r.
  - rewrite (hit_candidate_step _ _ _ _ Hc), IH. by rewrite <- app_assoc.
Qed.

Lemma results_loop_missing_chunk before h after cs acc :
  Forall2 hit_candidate before cs →
  h !! "chunk" = None →
  results_loop (before ++ VDict h :: after) acc = Raise (KeyError (KStr "chunk")).
Proof.
  intros H Hh. revert acc. induction H as [|res c hits cs' Hc _ IH]; intros acc.
  - cbn. by rewrite Hh.
  - rewrite <- app_comm_cons, (hit_candidate_step _ _ _ _ Hc). apply IH.
Qed.

Lemma results_with_scores_envelope name hits :
  results_with_scores name (envelope name hits)
  = (items ← py_iter hits; results_loop items []).
Proof.
  unfold results_with_scores, envelope. cbn.
  by repeat (rewrite lookup_singleton_eq; cbn).
Qed.

Lemma missing_key_raises name resp k :
  missing_key name resp k →
  results_with_scores name resp = Raise (KeyError (KStr k)).
Proof.
  unfold results_with_scores.
  intros [d Hd | d dd Hd Hg | d dd g Hd Hg Hn | d dd g before h after cs Hd Hg Hn Hb Hh];
    cbn; rewrite Hd; cbn; rewrite ?Hg; cbn; rewrite ?Hn; cbn; try done.
  by eapply results_loop_missing_chunk.
Qed.

Lemma typed_hits_candidates (ths : list (string * option Q)) :
  Forall2 hit_candidate (typed_hit <$> ths) (cand <$> (scored <$> ths)).
Proof.
  induction ths as [|[t [q|]] ths IH]; cbn; constructor; try done.
  - by eapply hit_scored.
  - by apply hit_no_additional.
Qed.

(** C4: a hit without the score field (no [additional] entry, or an
    [additional] dictionary without [certainty]) becomes a candidate of
    score 0 and the loop goes on to the next hit; a response whose hits
    all carry a chunk is processed to the end without raising, the
    unscored hits standing at their positions with score 0; and when the
    chunks are texts and the scores that are present are numbers,
    re-ranking the result returns a context, whichever scores are
    missing. *)
Theorem missing_certainty_defaults_to_zero name hits cs :
  Forall2 hit_candidate hits cs →
  results_with_scores name (envelope name (VList hits)) = Ok cs ∧
  (∀ res rest acc c, hit_candidate res c → lacks_certainty res →
     c.2 = VNum 0 ∧
     results_loop (res :: rest) acc = results_loop rest (acc ++ [(c.1, VNum 0)])) ∧
  (∀ i res, hits !! i = Some res → lacks_certainty res →
     ∃ c, cs !! i = Some (c, VNum 0)) ∧
  (∀ (ths : list (string * option Q)) top_p, 0 ≤ top_p →
     ∃ out, (rws ← results_with_scores name
                      (envelope name (VList (typed_hit <$> ths)));
             rerank rws top_p) = Ok out).
Proof.
  intros H. split_and!.
  - rewrite results_with_scores_envelope. cbn.
    by rewrite (results_loop_candidates _ _ _ H).
  - intros res rest acc c Hc Hl.
    assert (c.2 = VNum 0) as Hz.
    { destruct Hc as [d a c q Hc Ha Hq | |]; [|done..].
      cbn in Hl. rewrite Ha in Hl. congruence. }
    split; [done|]. rewrite (hit_candidate_step _ _ _ _ Hc).
    destruct c; cbn in *; by subst.
  - intros i res Hi Hl.
    destruct (Forall2_lookup_l _ _ _ _ _ H Hi) as (c & Hci & Hc).
    exists c.1. rewrite Hci. f_equal.
    destruct Hc as [d a c q Hc Ha Hq | |]; [|done..].
    cbn in Hl. rewrite Ha in Hl. congruence.
  - intros ths top_p Hp. rewrite results_with_scores_envelope. cbn.
    rewrite (results_loop_candidates _ _ _ (typed_hits_candidates ths)). cbn.
    eexists. by apply rerank_cands.
Qed.

Lemma missing_certainty_defaults_to_zero_witness :
  Forall2 hit_candidate
    [hit "x" 0.7; hit_unscored "z";
     VDict {[ "chunk" := VStr "u"; "additional" := VDict ∅ ]}]
    [(VStr "x", VNum 0.7); (VStr "z", VNum 0); (VStr "u", VNum 0)] ∧
  results_with_scores "Article" (envelope "Article" (VList
    [hit "x" 0.7; hit_unscored "z";
     VDict {[ "chunk" := VStr "u"; "additional" := VDict ∅ ]}]))
  = Ok [(VStr "x", VNum 0.7); (VStr "z", VNum 0); (VStr "u", VNum 0)].
Proof.
  assert (Forall2 hit_candidate
    [hit "x" 0.7; hit_unscored "z";
     VDict {[ "chunk" := VStr "u"; "additional" := VDict ∅ ]}]
    [(VStr "x", VNum 0.7); (VStr "z", VNum 0); (VStr "u", VNum 0)]) as H.
  { apply List.Forall2_cons; [eapply hit_scored; reflexivity|].
    apply List.Forall2_cons; [apply hit_no_additional; reflexivity|].
    apply List.Forall2_cons; [eapply hit_no_certainty; reflexivity|].
    apply List.Forall2_nil. }
  split; [exact H|].
  exact (proj1 (missing_certainty_defaults_to_zero "Article" _ _ H)).
Defined.

End Retrieval.

(** ** The [except KeyError] branch and the interactive loop *)

Section KeyErrorPath.
Context (E : services).

Lemma queries_after_retrieve query top_k top_p w result' w1 :
  retrieve E query top_k w = (Ok result', w1) →
  queries E query top_k top_p w
  = match results_with_scores (collection_name w1) result' with
    | Raise (KeyError k) =>
        (Ok key_error_message,
         add_stdout w1 [VStr ("Key error encountered: " +:+ repr_key k)])
    | Raise e => (Raise e, w1)
    | Ok rws => (rerank rws top_p, w1)
    end.
Proof.
  intros Hr. unfold queries, mbind, M_bind. rewrite Hr. cbn.
  destruct (results_with_scores _ _) as [rws|[]]; done.
Qed.

Lemma queries_key_error query top_k top_p w result' w1 k :
  retrieve E query top_k w = (Ok result', w1) →
  missing_key (collection_name w1) result' k →
  queries E query top_k top_p w
  = (Ok key_error_message, add_stdout w1 (key_error_line k)).
Proof.
  intros Hr Hk. rewrite (queries_after_retrieve _ _ _ _ _ _ Hr).
  by rewrite (missing_key_raises _ _ _ Hk).
Qed.

(** C2, as the code has it: when the store's response lacks an expected
    key, [queries] does not raise.  It prints one line naming the missing
    key and returns the fixed message as an ordinary string; no text of
    any hit is returned, and neither the store nor the prompt log is
    touched by the handler. *)
Theorem queries_missing_key_returns_message query top_k top_p w result' w1 k :
  retrieve E query top_k w = (Ok result', w1) →
  missing_key (collection_name w1) result' k →
  ∃ w2, queries E query top_k top_p w = (Ok key_error_message, w2) ∧
        stdout w2 = stdout w1 ++ [key_error_line k] ∧
        client w2 = client w1 ∧
        prompts w2 = prompts w1.
Proof.
  intros Hr Hk. eexists. split; [by eapply queries_key_error|done].
Qed.

(** C9: on a response with a missing key, [queries] returns the fixed
    message as an ordinary value, and the loop hands that message to
    [answer_query] as the context: the chat model is called with the
    prompt rendered from the query and the error message. *)
Theorem repl_passes_key_error_message_as_context query rest top_k w result' w1 k :
  query ≠ "q" →
  retrieve E query top_k (add_stdout w input_prompt) = (Ok result', w1) →
  missing_key (collection_name w1) result' k →
  let w2 := add_stdout w1 (key_error_line k) in
  queries E query top_k 4 (add_stdout w input_prompt) = (Ok key_error_message, w2) ∧
  repl E top_k (query :: rest) w
  = (answer ← answer_query E query key_error_message;
     _ ← print [VStr answer];
     repl E top_k rest) w2 ∧
  answer_query E query key_error_message w2
  = (chat E (render_prompt query key_error_message),
     add_prompt w2 (render_prompt query key_error_message)).
Proof.
  intros Hq Hr Hk w2.
  pose proof (queries_key_error _ _ 4 _ _ _ _ Hr Hk) as Hqs.
  split_and!; [done| |done].
  cbn [repl]. unfold mbind at 1, M_bind at 1. cbn [print].
  rewrite bool_decide_eq_false_2 by done.
  unfold mbind at 1, M_bind at 1. by rewrite Hqs.
Qed.

End KeyErrorPath.

Lemma queries_missing_key_returns_message_witness :
  ∃ w2, queries services_malformed "hello" 5 4 w_init = (Ok key_error_message, w2) ∧
        stdout w2
        = stdout (retrieve services_malformed "hello" 5 w_init).2
          ++ [key_error_line "data"] ∧
        client w2 = client (retrieve services_malformed "hello" 5 w_init).2 ∧
        prompts w2 = prompts (retrieve services_malformed "hello" 5 w_init).2.
Proof.
  apply (queries_missing_key_returns_message services_malformed
           "hello" 5 4 w_init (VDict ∅) _ "data").
  - reflexivity.
  - apply missing_data. reflexivity.
Defined.

(** C2 as stated fails: with a response that lacks ['data'], [queries]
    ends normally with the message string, not with an error. *)
Lemma queries_malformed_response_not_raised :
  missing_key "Article" (VDict ∅) "data" ∧
  (queries services_malformed "hello" 5 4 w_init).1 = Ok key_error_message ∧
  ¬ ∃ e, (queries services_malformed "hello" 5 4 w_init).1 = Raise e.
Proof.
  split_and!; [by apply missing_data | reflexivity |].
  intros [e He]. vm_compute in He. discriminate.
Qed.

Lemma repl_passes_key_error_message_as_context_witness :
  "hello" ≠ "q" ∧
  missing_key "Article" (VDict ∅) "data" ∧
  repl services_malformed 5 ["hello"; "q"] w_init
  = (answer ← answer_query services_malformed "hello" key_error_message;
     _ ← print [VStr answer];
     repl services_malformed 5 ["q"])
      (add_stdout (retrieve services_malformed "hello" 5
                     (add_stdout w_init input_prompt)).2
                  (key_error_line "data")) ∧
  prompts (repl services_malformed 5 ["hello"; "q"] w_init).2
  = [render_prompt "hello" key_error_message].
Proof.
  assert (missing_key "Article" (VDict ∅) "data") as Hk
    by (apply missing_data; reflexivity).
  assert ("hello" ≠ "q") as Hq by discriminate.
  split_and!; [exact Hq | exact Hk | | reflexivity].
  exact (proj1 (proj2 (repl_passes_key_error_message_as_context
    services_malformed "hello" ["q"] 5 w_init (VDict ∅) _ "data"
    Hq eq_refl Hk))).
Defined.

(** ** The batch writer *)

Section Batch.

Implicit Types (c : store) (w : world) (o : string * value).

Lemma set_client_set_client w c c' : set_client (set_client w c) c' = set_client w c'.
Proof. done. Qed.

Lemma set_client_id w : set_client w (client w) = w.
Proof. by destruct w. Qed.

Lemma batch_send_eq w : batch_send w = (Ok tt, set_client w (sent (client w))).
Proof. done. Qed.

Lemma batch_flush_eq w : batch_flush w = (Ok tt, set_client w (flushed (client w))).
Proof.
  unfold batch_flush, flushed, mbind, M_bind. cbn.
  destruct (pending (client w)) eqn:Hp; [|done].
  by rewrite set_client_id.
Qed.

Lemma batch_add_data_object_eq obj name w :
  batch_add_data_object obj name w
  = (Ok tt, set_client w (enqueue (client w) (name, obj))).
Proof.
  unfold batch_add_data_object, enqueue, mbind, M_bind. cbn.
  destruct (batch_size (client w)) as [n|]; [|done]. cbn.
  by destruct (bool_decide _).
Qed.

Lemma add_chunks_eq name vector_store i w :
  add_chunks name i vector_store w
  = (Ok tt, set_client w
      (foldl enqueue (client w) ((name,.) <$> chunk_objects i vector_store))).
Proof.
  revert i w. induction vector_store as [|chunk rest IH]; intros i w.
  - cbn. by rewrite set_client_id.
  - cbn [add_chunks]. unfold mbind at 1, M_bind at 1.
    rewrite batch_add_data_object_eq, IH. cbn. do 3 f_equal.
    + by rewrite Nat.add_0_r.
    + unfold chunk_objects. f_equal. apply imap_ext. intros j x _. cbn.
      f_equal. lia.
Qed.

Lemma enqueue_all c objs n :
  batch_size c = Some n → (0 < n)%nat → (length (pending c) < n)%nat →
  ∃ bs, let c' := foldl enqueue c objs in
    requests c' = requests c ++ (BatchCreate <$> bs) ∧
    Forall (fun b => length b = n) bs ∧
    concat bs ++ pending c' = pending c ++ objs ∧
    (length (pending c') < n)%nat ∧
    foldl add_object (classes c') (pending c')
    = foldl add_object (classes c) (pending c ++ objs) ∧
    batch_size c' = Some n.
Proof.
  intros Hn Hpos. revert c Hn.
  induction objs as [|o objs IH]; intros c Hn Hlen.
  - exists []. cbn. by rewrite !app_nil_r.
  - assert (enqueue c o
            = let c' := Store (classes c) (Some n) (pending c ++ [o]) (requests c) in
              if bool_decide (n ≤ length (pending c ++ [o]))%nat then sent c' else c')
      as Heq by (unfold enqueue; by rewrite Hn).
    cbn [foldl]. rewrite Heq. clear Heq. cbn zeta.
    case_bool_decide as Hfull.
    + destruct (IH (sent (Store (classes c) (Some n) (pending c ++ [o]) (requests c))))
        as (bs & Hr & Hbs & Hcat & Hlt & Hcl & Hsz); [done|cbn; lia|].
      exists ((pending c ++ [o]) :: bs). cbn in *.
      rewrite Hr, Hcl. split_and!; try done.
      * by rewrite <- app_assoc.
      * constructor; [|done]. rewrite length_app in *. cbn in *. lia.
      * rewrite <- !app_assoc. by rewrite Hcat.
      * by rewrite !foldl_app.
    + destruct (IH (Store (classes c) (Some n) (pending c ++ [o]) (requests c)))
        as (bs & Hr & Hbs & Hcat & Hlt & Hcl & Hsz); [done|cbn; lia|].
      exists bs. cbn in *. rewrite Hr, Hcl, Hcat. by rewrite <- app_assoc.
Qed.

Lemma flushed_enqueue_all c objs n :
  batch_size c = Some n → (0 < n)%nat → pending c = [] →
  ∃ bs, let c' := flushed (foldl enqueue c objs) in
    requests c' = requests c ++ (BatchCreate <$> bs) ∧
    fixed_size_batches n bs ∧
    concat bs = objs ∧
    pending c' = [] ∧
    classes c' = foldl add_object (classes c) objs ∧
    batch_size c' = Some n.
Proof.
  intros Hn Hpos Hp.
  destruct (enqueue_all c objs n) as (bs & Hr & Hbs & Hcat & Hlt & Hcl & Hsz);
    [done|done|rewrite Hp; cbn; lia|].
  cbn in *. rewrite Hp in *. cbn in *. unfold flushed.
  destruct (pending (foldl enqueue c objs)) as [|o p] eqn:Hq.
  - exists bs. rewrite app_nil_r in Hcat. cbn in Hcl.
    split_and!; try done. split.
    + eapply Forall_impl; [exact Hbs|]. cbn. intros b ->. lia.
    + intros i b Hi _. by eapply Forall_lookup_1 in Hbs.
  - exists (bs ++ [o :: p]). cbn. rewrite Hq, Hr, fmap_app, concat_app. cbn.
    rewrite app_nil_r, <- app_assoc.
    split_and!; try done. split.
    + apply Forall_app. split.
      * eapply Forall_impl; [exact Hbs|]. cbn. intros b ->. lia.
      * apply Forall_singleton. cbn in *. lia.
    + intros i b Hi Hlast. rewrite length_app in Hlast. cbn in Hlast.
      rewrite lookup_app_l in Hi by lia. by eapply Forall_lookup_1 in Hbs.
Qed.

End Batch.

(** ** [index] *)

Section Index.
Context (E : services).

Implicit Types (c : store) (w : world).

Lemma chunk_class_name name :
  getitem (chunk_class name) (KStr "class") = Ok (VStr name).
Proof. unfold chunk_class, getitem. by rewrite lookup_insert_eq. Qed.

Lemma foldl_add_object_insert (m : gmap string collection) name cls acc objs :
  foldl add_object (<[name := Collection cls acc]> m) ((name,.) <$> objs)
  = <[name := Collection cls (acc ++ objs)]> m.
Proof.
  revert acc. induction objs as [|o objs IH]; intros acc; cbn.
  - by rewrite app_nil_r.
  - unfold add_object at 1. cbn. rewrite alter_insert_eq. cbn.
    rewrite IH. by rewrite <- app_assoc.
Qed.

Lemma chunk_objects_length i vs : length (chunk_objects i vs) = length vs.
Proof. unfold chunk_objects. apply length_imap. Qed.

Lemma M_bind_ok {A B} (m : M A) (f : A → M B) w a w' :
  m w = (Ok a, w') → (m ≫= f) w = f a w'.
Proof. intros H. unfold mbind, M_bind. by rewrite H. Qed.

Lemma schema_create_class_eq name cls w :
  getitem cls (KStr "class") = Ok (VStr name) →
  classes (client w) !! name = None →
  schema_create_class cls w
  = (Ok tt, set_client w
      (Store (<[name := Collection cls []]> (classes (client w)))
             (batch_size (client w)) (pending (client w))
             (requests (client w) ++ [SchemaCreateClass cls]))).
Proof.
  intros Hc Hn. unfold schema_create_class, mbind, M_bind. cbn.
  rewrite Hc, Hn. done.
Qed.

Lemma index_chunks_eq vector_store w :
  let name := collection_name w in
  let c := flushed (foldl enqueue (recreated w)
                      ((name,.) <$> chunk_objects 0 vector_store)) in
  index_chunks vector_store w
  = (Ok VNone,
     World name (api_key w)
       (Store (classes c) (batch_size c) (pending c)
              (requests c ++ [QueryAggregate name]))
       (stdout w ++ [[VStr "Data indexed successfully!"];
                     [aggregate_response (classes c) name]])
       (prompts w)).
Proof.
  intros name c. unfold index_chunks.
  unfold mbind at 1, M_bind at 1. cbn [get_world].
  erewrite M_bind_ok by reflexivity.
  assert (∃ w1, (if bool_decide (is_Some (classes (client w) !! name))
                 then schema_delete_class name else mret ())
                  (set_client w (Store (classes (client w)) (batch_size (client w))
                     (pending (client w))
                     (requests (client w) ++ [SchemaExists name])))
                = (Ok tt, w1) ∧
                w1 = set_client w
                  (Store (delete name (classes (client w)))
                     (batch_size (client w)) (pending (client w))
                     (requests (client w) ++ [SchemaExists name]
                        ++ (if bool_decide (is_Some (classes (client w) !! name))
                            then [SchemaDeleteClass name] else []))))
    as (w1 & Hw1 & ->).
  { eexists. split; [|reflexivity]. case_bool_decide as Hex; cbn.
    - unfold schema_delete_class, mbind, M_bind. cbn. by rewrite <- app_assoc.
    - rewrite delete_id; [done|]. by apply eq_None_not_Some. }
  erewrite M_bind_ok by exact Hw1.
  erewrite M_bind_ok;
    [|apply (schema_create_class_eq name);
      [apply chunk_class_name | cbn; apply lookup_delete_eq]].
  erewrite M_bind_ok by reflexivity.
  erewrite M_bind_ok by apply add_chunks_eq.
  erewrite M_bind_ok by apply batch_flush_eq.
  cbn. rewrite insert_delete_eq. subst c name.
  set (name := collection_name w).
  assert (Store (<[name := Collection (chunk_class name) []]> (classes (client w)))
            (Some 100%nat) (pending (client w))
            ((requests (client w) ++ SchemaExists name
                :: (if bool_decide (is_Some (classes (client w) !! name))
                    then [SchemaDeleteClass name] else []))
               ++ [SchemaCreateClass (chunk_class name)])
          = recreated w) as ->.
  { unfold recreated. by rewrite <- app_assoc. }
  rewrite !set_client_set_client.
  unfold query_aggregate_count, mbind, M_bind. cbn.
  unfold mret, M_ret, add_stdout, set_client. cbn.
  by rewrite <- app_assoc.
Qed.

Lemma index_eq filename chunk_size chunk_overlap groups w :
  chunked_doc E filename chunk_size chunk_overlap = Ok groups →
  index E filename chunk_size chunk_overlap w = index_chunks (concat groups) w.
Proof. intros H. unfold index, mbind, M_bind, lift. by rewrite H. Qed.

Lemma flushed_pending c : pending (flushed c) = [].
Proof. unfold flushed. by destruct (pending c) eqn:H. Qed.

Lemma foldl_add_object_is_Some (m : gmap string collection) objs name :
  is_Some (foldl add_object m objs !! name) ↔ is_Some (m !! name).
Proof.
  revert m. induction objs as [|o objs IH]; intros m; [done|].
  cbn. rewrite IH. unfold add_object.
  destruct (decide (o.1 = name)) as [->|Hne].
  - rewrite lookup_alter_eq. apply fmap_is_Some.
  - by rewrite lookup_alter_ne.
Qed.

Lemma sent_is_Some c name :
  is_Some (classes (sent c) !! name) ↔ is_Some (classes c !! name).
Proof. apply foldl_add_object_is_Some. Qed.

Lemma enqueue_is_Some c o name :
  is_Some (classes (enqueue c o) !! name) ↔ is_Some (classes c !! name).
Proof.
  unfold enqueue. destruct (batch_size c); [|done].
  case_bool_decide; [|done]. by rewrite sent_is_Some.
Qed.

Lemma enqueue_all_is_Some c objs name :
  is_Some (classes (foldl enqueue c objs) !! name) ↔ is_Some (classes c !! name).
Proof.
  revert c. induction objs as [|o objs IH]; intros c; [done|].
  cbn. by rewrite IH, enqueue_is_Some.
Qed.

Lemma flushed_is_Some c name :
  is_Some (classes (flushed c) !! name) ↔ is_Some (classes c !! name).
Proof. unfold flushed. destruct (pending c); [done|]. apply sent_is_Some. Qed.

(** Whatever the client held, an indexing run ends normally, with the
    class present and nothing left queued. *)
Lemma index_chunks_settles vector_store w :
  ∃ w', index_chunks vector_store w = (Ok VNone, w') ∧
        pending (client w') = [] ∧
        collection_name w' = collection_name w ∧
        is_Some (classes (client w') !! collection_name w).
Proof.
  eexists. split; [apply index_chunks_eq|]. cbn.
  split_and!; [apply flushed_pending | done |].
  rewrite flushed_is_Some, enqueue_all_is_Some. cbn.
  rewrite lookup_insert_eq. by eexists.
Qed.

(** A run that starts with an empty queue. *)
Lemma index_chunks_spec vector_store w :
  pending (client w) = [] →
  let name := collection_name w in
  ∃ bs w',
    index_chunks vector_store w = (Ok VNone, w') ∧
    concat bs = (name,.) <$> chunk_objects 0 vector_store ∧
    fixed_size_batches 100 bs ∧
    requests (client w')
    = requests (client w) ++ [SchemaExists name]
        ++ (if bool_decide (is_Some (classes (client w) !! name))
            then [SchemaDeleteClass name] else [])
        ++ [SchemaCreateClass (chunk_class name)]
        ++ (BatchCreate <$> bs) ++ [QueryAggregate name] ∧
    classes (client w')
    = <[name := Collection (chunk_class name) (chunk_objects 0 vector_store)]>
        (classes (client w)) ∧
    pending (client w') = [] ∧
    stdout w' = stdout w ++ [[VStr "Data indexed successfully!"];
                             [count_response name (length vector_store)]] ∧
    collection_name w' = name.
Proof.
  intros Hp name.
  destruct (flushed_enqueue_all (recreated w)
              ((name,.) <$> chunk_objects 0 vector_store) 100)
    as (bs & Hr & Hbs & Hcat & Hpend & Hcl & Hsz); [done|lia|done|].
  cbn zeta in *. exists bs. eexists. split; [apply index_chunks_eq|].
  fold name. cbn [client requests classes pending stdout collection_name].
  assert (classes (flushed (foldl enqueue (recreated w)
                     ((name,.) <$> chunk_objects 0 vector_store)))
          = <[name := Collection (chunk_class name) (chunk_objects 0 vector_store)]>
              (classes (client w))) as Hcl'.
  { rewrite Hcl. unfold recreated. cbn [classes]. fold name.
    by rewrite foldl_add_object_insert. }
  split_and!; try done.
  - rewrite Hr. unfold recreated. cbn [requests]. fold name.
    by rewrite <- !app_assoc.
  - rewrite Hcl'. unfold aggregate_response.
    rewrite lookup_insert_eq. cbn [objects]. by rewrite chunk_objects_length.
Qed.

(** C3: indexing replaces.  A second run under the same collection name
    finds the class, deletes it, creates it afresh and writes its own
    chunks: afterwards the class holds exactly the second document's
    chunks, and the aggregate count is the second document's chunk
    count. *)
Theorem reindex_replaces_collection f1 cs1 co1 g1 f2 cs2 co2 g2 w :
  chunked_doc E f1 cs1 co1 = Ok g1 →
  chunked_doc E f2 cs2 co2 = Ok g2 →
  let name := collection_name w in
  ∃ w1 w2 bs,
    index E f1 cs1 co1 w = (Ok VNone, w1) ∧
    index E f2 cs2 co2 w1 = (Ok VNone, w2) ∧
    requests (client w2)
    = requests (client w1)
        ++ [SchemaExists name; SchemaDeleteClass name;
            SchemaCreateClass (chunk_class name)]
        ++ (BatchCreate <$> bs) ++ [QueryAggregate name] ∧
    concat bs = (name,.) <$> chunk_objects 0 (concat g2) ∧
    classes (client w2) !! name
    = Some (Collection (chunk_class name) (chunk_objects 0 (concat g2))) ∧
    aggregate_response (classes (client w2)) name
    = count_response name (length (concat g2)) ∧
    stdout w2 = stdout w1 ++ [[VStr "Data indexed successfully!"];
                              [count_response name (length (concat g2))]].
Proof.
  intros H1 H2 name.
  destruct (index_chunks_settles (concat g1) w) as (w1 & Hrun1 & Hp1 & Hn1 & Hex1).
  destruct (index_chunks_spec (concat g2) w1 Hp1)
    as (bs & w2 & Hrun2 & Hcat & _ & Hreq & Hcl & _ & Hout & _).
  rewrite Hn1 in *. fold name in Hex1, Hcat, Hreq, Hcl, Hout.
  rewrite bool_decide_eq_true_2 in Hreq by done.
  exists w1, w2, bs. rewrite (index_eq _ _ _ _ _ H1), (index_eq _ _ _ _ _ H2).
  split_and!; try done.
  - by rewrite Hcl, lookup_insert_eq.
  - unfold aggregate_response. rewrite Hcl, lookup_insert_eq. cbn [objects].
    by rewrite chunk_objects_length.
Qed.

(** C6, as the code has it: started with nothing queued, [index] sends
    the objects in batches of 100 (the last one may be shorter), the
    object of the chunk at position [i] of the flattened chunk groups
    carrying [chunk_index = i]; it returns [None], and the count it
    prints is the number of chunks written. *)
Theorem index_writes_numbered_chunks_in_batches filename cs co groups w :
  chunked_doc E filename cs co = Ok groups →
  pending (client w) = [] →
  let name := collection_name w in
  let vector_store := concat groups in
  ∃ bs w' before,
    index E filename cs co w = (Ok VNone, w') ∧
    requests (client w')
    = requests (client w) ++ before ++ (BatchCreate <$> bs) ++ [QueryAggregate name] ∧
    Forall (fun r => ∀ objs, r ≠ BatchCreate objs) before ∧
    fixed_size_batches 100 bs ∧
    concat bs = (name,.) <$> imap (fun i chunk => data_object chunk i) vector_store ∧
    (∀ i chunk, vector_store !! i = Some chunk →
       concat bs !! i
       = Some (name, VDict {[ "chunk" := VStr chunk;
                              "chunk_index" := VNum (inject_Z (Z.of_nat i)) ]})) ∧
    objects <$> classes (client w') !! name
    = Some (imap (fun i chunk => data_object chunk i) vector_store) ∧
    stdout w' = stdout w ++ [[VStr "Data indexed successfully!"];
                             [count_response name (length vector_store)]].
Proof.
  intros Hg Hp name vector_store.
  destruct (index_chunks_spec vector_store w Hp)
    as (bs & w' & Hrun & Hcat & Hbs & Hreq & Hcl & _ & Hout & _).
  fold name in Hcat, Hreq, Hcl, Hout.
  exists bs, w',
    ([SchemaExists name]
       ++ (if bool_decide (is_Some (classes (client w) !! name))
           then [SchemaDeleteClass name] else [])
       ++ [SchemaCreateClass (chunk_class name)]).
  rewrite (index_eq _ _ _ _ _ Hg).
  split_and!; try done.
  - rewrite Hreq. by rewrite <- !app_assoc.
  - case_bool_decide; repeat (apply Forall_cons; split; [done|]); apply Forall_nil_2.
  - intros i chunk Hi. rewrite Hcat, list_lookup_fmap.
    unfold chunk_objects. by rewrite list_lookup_imap, Hi.
  - by rewrite Hcl, lookup_insert_eq.
Qed.

End Index.

Lemma reindex_replaces_collection_witness :
  chunked_doc services_ok "a.pdf" 1000 250 = Ok [["p1-1"; "p1-2"]; ["p2-1"; "p2-2"]] ∧
  chunked_doc services_ok "b.pdf" 1000 250 = Ok [["q1-1"; "q1-2"]] ∧
  ∃ w1 w2 bs,
    index services_ok "a.pdf" 1000 250 w_init = (Ok VNone, w1) ∧
    index services_ok "b.pdf" 1000 250 w1 = (Ok VNone, w2) ∧
    requests (client w2)
    = requests (client w1)
        ++ [SchemaExists "Article"; SchemaDeleteClass "Article";
            SchemaCreateClass (chunk_class "Article")]
        ++ (BatchCreate <$> bs) ++ [QueryAggregate "Article"] ∧
    concat bs = ("Article",.) <$> chunk_objects 0 ["q1-1"; "q1-2"] ∧
    classes (client w2) !! "Article"
    = Some (Collection (chunk_class "Article") (chunk_objects 0 ["q1-1"; "q1-2"])) ∧
    aggregate_response (classes (client w2)) "Article" = count_response "Article" 2 ∧
    stdout w2 = stdout w1 ++ [[VStr "Data indexed successfully!"];
                              [count_response "Article" 2]].
Proof.
  split; [reflexivity|]. split; [reflexivity|].
  exact (reindex_replaces_collection services_ok
           "a.pdf" 1000 250 [["p1-1"; "p1-2"]; ["p2-1"; "p2-2"]]
           "b.pdf" 1000 250 [["q1-1"; "q1-2"]] w_init eq_refl eq_refl).
Defined.

Lemma index_writes_numbered_chunks_in_batches_witness :
  chunked_doc services_ok "a.pdf" 1000 250 = Ok [["p1-1"; "p1-2"]; ["p2-1"; "p2-2"]] ∧
  pending (client w_init) = [] ∧
  ∃ bs w' before,
    index services_ok "a.pdf" 1000 250 w_init = (Ok VNone, w') ∧
    requests (client w')
    = requests (client w_init) ++ before ++ (BatchCreate <$> bs)
        ++ [QueryAggregate "Article"] ∧
    Forall (fun r => ∀ objs, r ≠ BatchCreate objs) before ∧
    fixed_size_batches 100 bs ∧
    concat bs = ("Article",.) <$> imap (fun i chunk => data_object chunk i)
                                    ["p1-1"; "p1-2"; "p2-1"; "p2-2"] ∧
    (∀ i chunk, ["p1-1"; "p1-2"; "p2-1"; "p2-2"] !! i = Some chunk →
       concat bs !! i
       = Some ("Article", VDict {[ "chunk" := VStr chunk;
                                   "chunk_index" := VNum (inject_Z (Z.of_nat i)) ]})) ∧
    objects <$> classes (client w') !! "Article"
    = Some (imap (fun i chunk => data_object chunk i) ["p1-1"; "p1-2"; "p2-1"; "p2-2"]) ∧
    stdout w' = stdout w_init ++ [[VStr "Data indexed successfully!"];
                                  [count_response "Article" 4]].
Proof.
  split; [reflexivity|]. split; [reflexivity|].
  exact (index_writes_numbered_chunks_in_batches services_ok
           "a.pdf" 1000 250 [["p1-1"; "p1-2"]; ["p2-1"; "p2-2"]] w_init
           eq_refl eq_refl).
Defined.

(** C6 as stated fails: [index] returns [None], not the number of chunks
    it wrote (four here). *)
Lemma index_returns_none_not_count :
  chunked_doc services_ok "a.pdf" 1000 250 = Ok [["p1-1"; "p1-2"]; ["p2-1"; "p2-2"]] ∧
  (index services_ok "a.pdf" 1000 250 w_init).1 = Ok VNone ∧
  (index services_ok "a.pdf" 1000 250 w_init).1 ≠ Ok (VNum (inject_Z 4)).
Proof.
  split_and!; [reflexivity | reflexivity |].
  intros H. vm_compute in H. discriminate.
Qed.

(** ** A failed embedding *)

Section EmbeddingFailure.
Context (E : services).

Lemma embed_text_non_200 text w response :
  requests_post E (embedding_request (api_key w) text) = Ok response →
  r_status_code response ≠ 200 →
  embed_text E text w
  = (Ok VNone, add_stdout w (embedding_failure_line response)).
Proof.
  intros Hr Hs. unfold embed_text, mbind, M_bind, lift. cbn. rewrite Hr.
  by rewrite (proj2 (Z.eqb_neq _ _) Hs).
Qed.

Lemma embed_text_raises text w e :
  requests_post E (embedding_request (api_key w) text) = Raise e →
  embed_text E text w = (Raise e, w).
Proof.
  intros Hr. unfold embed_text, mbind, M_bind, lift. cbn. by rewrite Hr.
Qed.

(** C5, as the code has it: when the HTTP call raises, the exception
    passes through [embed_text] and [queries] unchanged; when the status
    is not 200, [embed_text] prints the status and the response text and
    returns [None] without raising.  Either way no vector is put in the
    place of the missing embedding: [queries] ends with an exception
    before it asks the store anything, and returns no context. *)
Theorem failed_embedding_aborts_query query top_k top_p w :
  embedding_failed (requests_post E (embedding_request (api_key w) query)) →
  ∃ e w',
    queries E query top_k top_p w = (Raise e, w') ∧
    client w' = client w ∧
    prompts w' = prompts w ∧
    match requests_post E (embedding_request (api_key w) query) with
    | Ok response =>
        embed_text E query w = (Ok VNone, w') ∧
        e = TypeError ∧
        stdout w' = stdout w ++ [embedding_failure_line response]
    | Raise e' =>
        embed_text E query w = (Raise e', w') ∧ e = e' ∧ w' = w
    end.
Proof.
  intros Hf.
  destruct (requests_post E (embedding_request (api_key w) query))
    as [response|e'] eqn:Hr; cbn in Hf.
  - exists TypeError, (add_stdout w (embedding_failure_line response)).
    pose proof (embed_text_non_200 _ _ _ Hr Hf) as He.
    split_and!; try done.
    unfold queries, retrieve, mbind, M_bind. by rewrite He.
  - exists e', w. pose proof (embed_text_raises _ _ _ Hr) as He.
    split_and!; try done.
    unfold queries, retrieve, mbind, M_bind. by rewrite He.
Qed.

End EmbeddingFailure.

Lemma failed_embedding_aborts_query_witness :
  embedding_failed (Ok embedding_500) ∧
  ∃ e w',
    queries services_embedding_500 "hello" 5 4 w_init = (Raise e, w') ∧
    client w' = client w_init ∧
    prompts w' = prompts w_init ∧
    embed_text services_embedding_500 "hello" w_init = (Ok VNone, w') ∧
    e = TypeError ∧
    stdout w' = stdout w_init ++ [embedding_failure_line embedding_500].
Proof.
  assert (embedding_failed (Ok embedding_500)) as Hf by (cbn; lia).
  split; [exact Hf|].
  exact (failed_embedding_aborts_query services_embedding_500 "hello" 5 4 w_init Hf).
Defined.

(** C5 as stated fails: on a 500 response [embed_text] raises nothing; it
    returns [None]. *)
Lemma embed_text_non_200_not_raised :
  r_status_code embedding_500 ≠ 200 ∧
  (embed_text services_embedding_500 "hello" w_init).1 = Ok VNone ∧
  ¬ ∃ e, (embed_text services_embedding_500 "hello" w_init).1 = Raise e.
Proof.
  split_and!; [cbn; lia | reflexivity |].
  intros [e He]. vm_compute in He. discriminate.
Qed.

(** ** The query path only reads the store *)

Section ReadOnly.
Context (E : services).

Implicit Types (c : store) (w : world).

Lemma read_only_refl c : read_only c c.
Proof. split_and!; try done. exists []. by rewrite app_nil_r. Qed.

Lemma read_only_trans c1 c2 c3 :
  read_only c1 c2 → read_only c2 c3 → read_only c1 c3.
Proof.
  intros (Hc & Hp & Hb & a1 & Hr & Ha1) (Hc' & Hp' & Hb' & a2 & Hr' & Ha2).
  split_and!; try congruence. exists (a1 ++ a2).
  split; [by rewrite Hr', Hr, app_assoc | by apply Forall_app].
Qed.

Lemma read_only_search c name props near limit additional :
  read_only c (Store (classes c) (batch_size c) (pending c)
                 (requests c ++ [QueryGet name props near limit additional])).
Proof.
  split_and!; try done. eexists. split; [done|]. by apply Forall_singleton.
Qed.

Lemma embed_text_client text w : client (embed_text E text w).2 = client w.
Proof.
  unfold embed_text, mbind, M_bind, lift, get_world. cbn.
  repeat case_match; simplify_eq/=; done.
Qed.

Lemma retrieve_read_only query top_k w :
  read_only (client w) (client (retrieve E query top_k w).2).
Proof.
  unfold retrieve. unfold mbind at 1, M_bind at 1.
  pose proof (embed_text_client query w) as He.
  destruct (embed_text E query w) as [[e|ex] w1]; cbn in He;
    [|cbn; rewrite He; apply read_only_refl].
  unfold query_get, mbind, M_bind, lift, get_world, log_request. cbn.
  repeat case_match; simplify_eq/=; rewrite ?He;
    try apply read_only_refl; apply read_only_search.
Qed.

Lemma queries_read_only query top_k top_p w :
  read_only (client w) (client (queries E query top_k top_p w).2).
Proof.
  unfold queries. unfold mbind at 1, M_bind at 1.
  pose proof (retrieve_read_only query top_k w) as Hr.
  destruct (retrieve E query top_k w) as [[r|ex] w1]; cbn in Hr; [|done].
  unfold mbind, M_bind, lift, get_world, raise. cbn.
  repeat case_match; simplify_eq/=; done.
Qed.

Lemma answer_query_client query context w :
  client (answer_query E query context w).2 = client w.
Proof. done. Qed.

Lemma repl_read_only top_k inputs w :
  read_only (client w) (client (repl E top_k inputs w).2).
Proof.
  revert w. induction inputs as [|query rest IH]; intros w.
  - cbn. apply read_only_refl.
  - cbn [repl]. unfold mbind at 1, M_bind at 1. cbn [print].
    case_bool_decide; [apply read_only_refl|].
    unfold mbind at 1, M_bind at 1.
    pose proof (queries_read_only query top_k 4 (add_stdout w input_prompt)) as Hq.
    destruct (queries E query top_k 4 _) as [[context|ex] w1]; cbn in Hq; [|done].
    unfold mbind at 1, M_bind at 1.
    pose proof (answer_query_client query context w1) as Ha.
    destruct (answer_query E query context w1) as [[answer|ex] w2]; cbn in Ha;
      [|cbn; by rewrite Ha].
    unfold mbind at 1, M_bind at 1. cbn [print].
    eapply read_only_trans; [|apply IH]. cbn. by rewrite Ha.
Qed.

(** C10: the query path only reads the vector store.  [queries] leaves
    the classes (schemas and stored chunks), the batch queue and the
    batch size as they were and sends the store nothing but searches;
    [answer_query] does not touch the client at all; and so the whole
    interactive loop, however many queries it serves, leaves the store
    as indexing left it. *)
Theorem query_path_reads_only query context top_k top_p inputs w :
  read_only (client w) (client (queries E query top_k top_p w).2) ∧
  client (answer_query E query context w).2 = client w ∧
  read_only (client w) (client (repl E top_k inputs w).2).
Proof.
  split_and!;
    [apply queries_read_only | apply answer_query_client | apply repl_read_only].
Qed.

End ReadOnly.

(** ** Runs on concrete inputs *)

(** 250 chunks go out as two batches of 100 and one of 50. *)
Example index_250_chunks :
  batch_sizes (requests (client (index_chunks (replicate 250 "c") w_init).2))
  = [100; 100; 50]%nat.
Proof. vm_compute. reflexivity. Qed.

(** Scenario E of the spec, through [queries]: the hit without a score
    ranks last, with score 0, and nothing is raised. *)
Example queries_unscored_hit :
  (queries (demo_services (Ok embedding_ok)
              (Ok (envelope "Article"
                     (VList [hit "x" 0.7; hit_unscored "z"; hit "y" 0.95]))))
           "hello" 5 4 w_init).1
  = Ok ("y" +:+ nl +:+ nl +:+ "x" +:+ nl +:+ nl +:+ "z").
Proof. vm_compute. reflexivity. Qed.

(** Scenario D of the spec: no hits, no error, an empty context. *)
Example queries_empty_collection :
  (queries services_ok "hello" 5 4 w_init).1 = Ok "".
Proof. vm_compute. reflexivity. Qed.

(** A hit without ['chunk'] after a well-formed one: the first hit's text
    is not returned. *)
Example queries_missing_chunk :
  (queries (demo_services (Ok embedding_ok)
              (Ok (envelope "Article"
                     (VList [hit "x" 0.7; VDict {[ "text" := VStr "y" ]}]))))
           "hello" 5 4 w_init).1
  = Ok key_error_message.
Proof. vm_compute. reflexivity. Qed.

(** * Further properties of [src/main.py] *)

(** ** More on the re-ranker *)

Section RerankEdges.

Implicit Types (c x y : string * Q) (l s cands : list (string * Q)).

Lemma rerank_sorted cands s top_p :
  stable_sort_desc cands s →
  rerank (cand <$> cands) top_p
  = Ok (String.concat (nl +:+ nl) ((slice_to s top_p).*1)).
Proof.
  intros Hs. apply stable_sort_desc_unique in Hs as ->.
  unfold rerank, sorted_results. rewrite sorted_reverse_cand. cbn.
  unfold top_p_results, slice_to. rewrite !length_fmap.
  destruct (top_p <? 0); rewrite <- fmap_take; apply context_cands.
Qed.

(** X1: with [top_p] at least the number of candidates, nothing is cut
    off: the context is the join of every candidate's text, in stable
    descending score order. *)
Theorem rerank_keeps_all_when_top_p_large cands s top_p :
  stable_sort_desc cands s →
  Z.of_nat (length cands) ≤ top_p →
  rerank (cand <$> cands) top_p = Ok (String.concat (nl +:+ nl) (s.*1)).
Proof.
  intros Hs Hp. rewrite (rerank_sorted _ _ _ Hs).
  rewrite slice_to_nonneg by lia. rewrite take_ge; [done|].
  destruct Hs as (Hperm & _). apply Permutation_length in Hperm. lia.
Qed.

Lemma rerank_keeps_all_when_top_p_large_witness :
  stable_sort_desc [("x", 0.7%Q); ("y", 0.95%Q)] [("y", 0.95%Q); ("x", 0.7%Q)] ∧
  Z.of_nat (length [("x", 0.7%Q); ("y", 0.95%Q)]) ≤ 4 ∧
  rerank (cand <$> [("x", 0.7%Q); ("y", 0.95%Q)]) 4
  = Ok (String.concat (nl +:+ nl) ([("y", 0.95%Q); ("x", 0.7%Q)].*1)).
Proof.
  assert (stable_sort_desc [("x", 0.7%Q); ("y", 0.95%Q)]
            [("y", 0.95%Q); ("x", 0.7%Q)]) as Hs
    by exact (sort_cands_spec [("x", 0.7%Q); ("y", 0.95%Q)]).
  assert (Z.of_nat (length [("x", 0.7%Q); ("y", 0.95%Q)]) ≤ 4) as Hp by (cbn; lia).
  split; [exact Hs|]. split; [exact Hp|].
  exact (rerank_keeps_all_when_top_p_large _ _ 4 Hs Hp).
Defined.

(** X2: [top_p] is used as a Python slice bound.  With [top_p = 0] the
    context is empty; with a negative [top_p = -k] the slice counts from
    the end, so the [k] lowest-ranked candidates are dropped and all the
    others are kept. *)
Theorem rerank_nonpositive_top_p cands s :
  stable_sort_desc cands s →
  rerank (cand <$> cands) 0 = Ok "" ∧
  ∀ k, 0 < k →
    rerank (cand <$> cands) (- k)
    = Ok (String.concat (nl +:+ nl) ((take (length cands - Z.to_nat k) s).*1)).
Proof.
  intros Hs. split.
  - by rewrite (rerank_sorted _ _ _ Hs).
  - intros k Hk. rewrite (rerank_sorted _ _ _ Hs). unfold slice_to.
    rewrite (proj2 (Z.ltb_lt (- k) 0)) by lia.
    destruct Hs as (Hperm & _). apply Permutation_length in Hperm.
    do 4 f_equal. lia.
Qed.

Lemma rerank_nonpositive_top_p_witness :
  stable_sort_desc [("x", 0.7%Q); ("y", 0.95%Q)] [("y", 0.95%Q); ("x", 0.7%Q)] ∧
  rerank (cand <$> [("x", 0.7%Q); ("y", 0.95%Q)]) (- 1) = Ok "y".
Proof.
  assert (stable_sort_desc [("x", 0.7%Q); ("y", 0.95%Q)]
            [("y", 0.95%Q); ("x", 0.7%Q)]) as Hs
    by exact (sort_cands_spec [("x", 0.7%Q); ("y", 0.95%Q)]).
  split; [exact Hs|].
  exact (proj2 (rerank_nonpositive_top_p _ _ Hs) 1 eq_refl).
Defined.

Lemma filter_head_split {A} (f : A → bool) (l : list A) a r :
  List.filter f l = a :: r →
  ∃ pre post, l = pre ++ a :: post ∧ Forall (fun z => f z = false) pre.
Proof.
  induction l as [|z l IH]; cbn; [done|].
  destruct (f z) eqn:Hz.
  - intros [= -> <-]. by exists [], l.
  - intros H. destruct (IH H) as (pre & post & -> & Hpre).
    exists (z :: pre), post. split; [done|]. by constructor.
Qed.

(** X3: with [top_p = 1] the context is the text of one candidate, a
    best-scored one, and among the best-scored candidates the one that
    was retrieved first. *)
Theorem rerank_top_1_is_first_best cands :
  cands ≠ [] →
  ∃ c pre post,
    cands = pre ++ c :: post ∧
    (∀ c', c' ∈ cands → (c'.2 <= c.2)%Q) ∧
    (∀ c', c' ∈ pre → ¬ (c'.2 == c.2)%Q) ∧
    rerank (cand <$> cands) 1 = Ok c.1.
Proof.
  intros Hne. pose proof (sort_cands_spec cands) as (Hperm & Hsorted & Hstable).
  destruct (sort_cands cands) as [|c s'] eqn:Hs.
  { apply Permutation_nil_r in Hperm. done. }
  specialize (Hstable c.2). cbn in Hstable. rewrite same_score_self in Hstable.
  symmetry in Hstable.
  destruct (filter_head_split _ _ _ _ Hstable) as (pre & post & Hsplit & Hpre).
  exists c, pre, post. split_and!; [done| | |].
  - intros c' Hin. rewrite Hperm in Hin.
    apply Sorted_StronglySorted in Hsorted; [|exact score_ge_trans].
    apply elem_of_cons in Hin as [->|Hin]; [apply Qle_refl|].
    inversion Hsorted as [|? ? _ Hall]; subst.
    rewrite Forall_forall in Hall. by apply Hall.
  - intros c' Hin Heq. rewrite Forall_forall in Hpre.
    specialize (Hpre c' Hin). unfold same_score in Hpre.
    apply not_true_iff_false in Hpre. apply Hpre. by apply Qeq_bool_iff.
  - rewrite rerank_cands by lia. rewrite Hs.
    change (Z.to_nat 1) with 1%nat. by cbn.
Qed.

Lemma rerank_top_1_is_first_best_witness :
  [("x", 0.7%Q); ("y", 0.95%Q); ("z", 0.95%Q)] ≠ [] ∧
  ∃ c pre post,
    [("x", 0.7%Q); ("y", 0.95%Q); ("z", 0.95%Q)] = pre ++ c :: post ∧
    (∀ c', c' ∈ [("x", 0.7%Q); ("y", 0.95%Q); ("z", 0.95%Q)] → (c'.2 <= c.2)%Q) ∧
    (∀ c', c' ∈ pre → ¬ (c'.2 == c.2)%Q) ∧
    rerank (cand <$> [("x", 0.7%Q); ("y", 0.95%Q); ("z", 0.95%Q)]) 1 = Ok c.1.
Proof.
  assert ([("x", 0.7%Q); ("y", 0.95%Q); ("z", 0.95%Q)] ≠ []) as Hne by discriminate.
  split; [exact Hne|].
  exact (rerank_top_1_is_first_best _ Hne).
Defined.

Lemma filter_perm {A} (f : A → bool) (l l' : list A) :
  l ≡ₚ l' → List.filter f l ≡ₚ List.filter f l'.
Proof.
  induction 1 as [|z l l' _ IH|z z' l|l1 l2 l3 _ IH1 _ IH2]; cbn.
  - done.
  - destruct (f z); by rewrite IH.
  - destruct (f z), (f z'); try done. apply Permutation_swap.
  - by rewrite IH1.
Qed.

Lemma filter_all_false {A} (f : A → bool) (l : list A) :
  Forall (fun z => f z = false) l → List.filter f l = [].
Proof. induction 1 as [|z l Hz _ IH]; cbn; [done|]. by rewrite Hz. Qed.

Lemma filter_no_ties q l :
  ForallOrdPairs (fun a b => ¬ (a.2 == b.2)%Q) l →
  (length (List.filter (same_score q) l) ≤ 1)%nat.
Proof.
  induction 1 as [|a l Ha _ IH]; cbn; [lia|].
  destruct (same_score q a) eqn:Hqa; [|done].
  assert (List.filter (same_score q) l = []) as ->; [|cbn; lia].
  apply filter_all_false. rewrite List.Forall_forall in Ha.
  apply Forall_forall. intros b Hb%list_elem_of_In.
  apply not_true_iff_false. intros Hqb.
  apply (Ha b Hb). unfold same_score in *.
  apply Qeq_bool_iff in Hqa, Hqb. by rewrite Hqa, Hqb.
Qed.

(** X4: when no two candidates have equal scores, the order in which the
    store returned them does not matter: any rearrangement of the
    candidates gives the same context, for every [top_p]. *)
Theorem rerank_order_irrelevant_without_ties cands cands' top_p :
  ForallOrdPairs (fun a b => ¬ (a.2 == b.2)%Q) cands →
  cands ≡ₚ cands' →
  rerank (cand <$> cands) top_p = rerank (cand <$> cands') top_p.
Proof.
  intros Hties Hperm.
  rewrite (rerank_sorted _ _ _ (sort_cands_spec cands)).
  rewrite (rerank_sorted _ _ _ (sort_cands_spec cands')).
  do 4 f_equal.
  apply sorted_filter_unique; [apply sort_cands_sorted..|].
  intros q. rewrite !sort_cands_stable.
  pose proof (filter_no_ties q _ Hties) as Hlen.
  pose proof (filter_perm (same_score q) _ _ Hperm) as Hp.
  destruct (List.filter (same_score q) cands) as [|a [|b r]]; cbn in Hlen; [| |lia].
  - by apply Permutation_nil_l in Hp.
  - by apply Permutation_singleton_l in Hp.
Qed.

Lemma rerank_order_irrelevant_without_ties_witness :
  ForallOrdPairs (fun a b : string * Q => ¬ (a.2 == b.2)%Q)
    [("x", 0.7%Q); ("y", 0.95%Q)] ∧
  [("x", 0.7%Q); ("y", 0.95%Q)] ≡ₚ [("y", 0.95%Q); ("x", 0.7%Q)] ∧
  rerank (cand <$> [("x", 0.7%Q); ("y", 0.95%Q)]) 4
  = rerank (cand <$> [("y", 0.95%Q); ("x", 0.7%Q)]) 4.
Proof.
  assert (ForallOrdPairs (fun a b : string * Q => ¬ (a.2 == b.2)%Q)
            [("x", 0.7%Q); ("y", 0.95%Q)]) as Hties.
  { constructor; [|constructor; [constructor|constructor]].
    constructor; [|constructor]. cbn. intros H. by apply Qeq_bool_iff in H. }
  assert ([("x", 0.7%Q); ("y", 0.95%Q)] ≡ₚ [("y", 0.95%Q); ("x", 0.7%Q)]) as Hperm
    by apply Permutation_swap.
  split; [exact Hties|]. split; [exact Hperm|].
  exact (rerank_order_irrelevant_without_ties _ _ 4 Hties Hperm).
Defined.

End RerankEdges.

(** ** Errors the [except KeyError] clause does not catch *)

Section Uncaught.
Context (E : services).

Implicit Types (a b x y : value * value) (l s rws : list (value * value)).

Lemma py_lt_ok_num u v r :
  py_lt u v = Ok r → (is_Some (num_of u) ↔ is_Some (num_of v)).
Proof.
  unfold py_lt. destruct (num_of u) eqn:Hu, (num_of v) eqn:Hv; intros H.
  - split; by eexists.
  - destruct u, v; cbn in *; congruence.
  - destruct u, v; cbn in *; congruence.
  - split; intros [? [=]].
Qed.

Lemma py_lt_raise u v e : py_lt u v = Raise e → e = TypeError.
Proof.
  unfold py_lt. destruct (num_of u), (num_of v); try done;
    destruct u, v; cbn; congruence.
Qed.

Lemma insert_desc_perm x s r : insert_desc x s = Ok r → r ≡ₚ x :: s.
Proof.
  revert r. induction s as [|y s IH]; intros r; cbn.
  - by intros [= <-].
  - destruct (py_lt x.2 y.2) as [[]|]; cbn; [|by intros [= <-]|done].
    destruct (insert_desc x s) as [r'|]; cbn; [|done].
    intros [= <-]. rewrite (IH r' eq_refl). apply Permutation_swap.
Qed.

Lemma insert_desc_raise x s e : insert_desc x s = Raise e → e = TypeError.
Proof.
  induction s as [|y s IH]; cbn; [done|].
  destruct (py_lt x.2 y.2) as [[]|e'] eqn:Hlt; cbn; [|done|].
  - destruct (insert_desc x s); cbn; [done|]. intros [= <-]. by apply IH.
  - intros [= <-]. by eapply py_lt_raise.
Qed.

Lemma sorted_reverse_perm l s : sorted_reverse l = Ok s → s ≡ₚ l.
Proof.
  revert s. induction l as [|x l IH]; intros s; cbn; [by intros [= <-]|].
  destruct (sorted_reverse l) as [s'|]; cbn; [|done].
  intros H%insert_desc_perm. by rewrite H, (IH s' eq_refl).
Qed.

Lemma sorted_reverse_raise l e : sorted_reverse l = Raise e → e = TypeError.
Proof.
  induction l as [|x l IH]; cbn; [done|].
  destruct (sorted_reverse l) as [s'|e']; cbn.
  - apply insert_desc_raise.
  - intros [= <-]. by apply IH.
Qed.

(** A sort that ends normally has compared like with like: either every
    key is a number or none is. *)
Lemma sorted_reverse_uniform l s a b :
  sorted_reverse l = Ok s → a ∈ l → b ∈ l →
  (is_Some (num_of a.2) ↔ is_Some (num_of b.2)).
Proof.
  revert s a b. induction l as [|x l IH]; intros s a b; cbn; [by intros _ ?%elem_of_nil|].
  destruct (sorted_reverse l) as [s'|] eqn:Hs'; cbn; [|done].
  intros Hins Ha Hb.
  assert (∀ y, y ∈ l → is_Some (num_of x.2) ↔ is_Some (num_of y.2)) as Hx.
  { intros y Hy. pose proof (sorted_reverse_perm _ _ Hs') as Hperm.
    destruct s' as [|y0 s'].
    { apply Permutation_nil_l in Hperm. subst. by apply elem_of_nil in Hy. }
    cbn in Hins. destruct (py_lt x.2 y0.2) as [r|] eqn:Hlt; [|done].
    rewrite (py_lt_ok_num _ _ _ Hlt).
    apply (IH _ y0 y eq_refl); [|done]. rewrite <- Hperm. left. }
  apply elem_of_cons in Ha as [->|Ha], Hb as [->|Hb]; [done| | |].
  - by apply Hx.
  - symmetry. by apply Hx.
  - by apply (IH _ a b eq_refl).
Qed.

Lemma rerank_mixed_keys rws a b top_p :
  a ∈ rws → b ∈ rws → is_Some (num_of a.2) → num_of b.2 = None →
  rerank rws top_p = Raise TypeError.
Proof.
  intros Ha Hb Hna Hnb. unfold rerank, sorted_results.
  destruct (sorted_reverse rws) as [s|e] eqn:Hs; cbn.
  - apply (sorted_reverse_uniform _ _ a b Hs Ha Hb) in Hna.
    rewrite Hnb in Hna. by destruct Hna.
  - by rewrite (sorted_reverse_raise _ _ Hs).
Qed.

(** X5: scores of different kinds cannot be ranked.  If one hit's
    certainty is a number and another's is not (a string, [None], a list
    or a dictionary), sorting raises [TypeError]; the handler catches
    [KeyError] only, so [queries] raises and prints nothing. *)
Theorem queries_mixed_scores_raise query top_k top_p w result' w1 rws a b :
  retrieve E query top_k w = (Ok result', w1) →
  results_with_scores (collection_name w1) result' = Ok rws →
  a ∈ rws → b ∈ rws →
  is_Some (num_of a.2) → num_of b.2 = None →
  queries E query top_k top_p w = (Raise TypeError, w1).
Proof.
  intros Hr Hrws Ha Hb Hna Hnb.
  rewrite (queries_after_retrieve _ _ _ _ _ _ _ Hr), Hrws.
  by rewrite (rerank_mixed_keys _ _ _ _ Ha Hb Hna Hnb).
Qed.

Lemma results_loop_bad_additional before h after cs acc c v :
  Forall2 hit_candidate before cs →
  h !! "chunk" = Some c →
  h !! "additional" = Some v →
  (∀ d, v ≠ VDict d) →
  results_loop (before ++ VDict h :: after) acc = Raise AttributeError.
Proof.
  intros H Hc Hv Hd. revert acc.
  induction H as [|res c' hits cs' Hc' _ IH]; intros acc.
  - cbn. rewrite Hc. cbn. rewrite Hv. cbn. destruct v; try done. by destruct (Hd d).
  - rewrite <- app_comm_cons, (hit_candidate_step _ _ _ _ Hc'). apply IH.
Qed.

(** X6: a hit whose ['additional'] entry is present but is not a
    dictionary (for instance [None]) makes [.get] fail with
    [AttributeError]; the handler does not catch it, so [queries] raises,
    prints nothing and returns no context, whatever hits came before. *)
Theorem queries_bad_additional_raises
    query top_k top_p w w1 before h after cs c v :
  retrieve E query top_k w
  = (Ok (envelope (collection_name w1) (VList (before ++ VDict h :: after))), w1) →
  Forall2 hit_candidate before cs →
  h !! "chunk" = Some c →
  h !! "additional" = Some v →
  (∀ d, v ≠ VDict d) →
  queries E query top_k top_p w = (Raise AttributeError, w1).
Proof.
  intros Hr Hb Hc Hv Hd.
  rewrite (queries_after_retrieve _ _ _ _ _ _ _ Hr).
  rewrite results_with_scores_envelope. cbn.
  by rewrite (results_loop_bad_additional _ _ _ _ _ _ _ Hb Hc Hv Hd).
Qed.

(** X7: when the entry for the class is not a sequence of hits but
    [None], a number or a boolean, the [for] loop raises [TypeError],
    which is not caught: [queries] raises and prints nothing. *)
Theorem queries_hits_not_iterable_raises query top_k top_p w w1 hits :
  retrieve E query top_k w = (Ok (envelope (collection_name w1) hits), w1) →
  hits = VNone ∨ (∃ q, hits = VNum q) ∨ (∃ t : bool, hits = VBool t) →
  queries E query top_k top_p w = (Raise TypeError, w1).
Proof.
  intros Hr Hh. rewrite (queries_after_retrieve _ _ _ _ _ _ _ Hr).
  rewrite results_with_scores_envelope.
  by destruct Hh as [->|[[q ->]|[t ->]]].
Qed.

End Uncaught.

Lemma queries_mixed_scores_raise_witness :
  queries (services_with (VList [hit "x" 0.7; hit_with "y" VNone])) "hello" 5 4 w_init
  = (Raise TypeError,
     (retrieve (services_with (VList [hit "x" 0.7; hit_with "y" VNone]))
        "hello" 5 w_init).2).
Proof.
  apply (queries_mixed_scores_raise
           (services_with (VList [hit "x" 0.7; hit_with "y" VNone]))
           "hello" 5 4 w_init
           (envelope "Article" (VList [hit "x" 0.7; hit_with "y" VNone])) _
           [(VStr "x", VNum 0.7); (VStr "y", VNone)]
           (VStr "x", VNum 0.7) (VStr "y", VNone)).
  - reflexivity.
  - reflexivity.
  - apply elem_of_cons. by left.
  - apply elem_of_cons. right. apply elem_of_cons. by left.
  - by eexists.
  - reflexivity.
Defined.

Lemma queries_bad_additional_raises_witness :
  queries (services_with (VList [hit "x" 0.7;
             VDict {[ "chunk" := VStr "y"; "additional" := VNone ]}]))
          "hello" 5 4 w_init
  = (Raise AttributeError,
     (retrieve (services_with (VList [hit "x" 0.7;
                  VDict {[ "chunk" := VStr "y"; "additional" := VNone ]}]))
        "hello" 5 w_init).2).
Proof.
  apply (queries_bad_additional_raises
           (services_with (VList [hit "x" 0.7;
              VDict {[ "chunk" := VStr "y"; "additional" := VNone ]}]))
           "hello" 5 4 w_init _ [hit "x" 0.7]
           {[ "chunk" := VStr "y"; "additional" := VNone ]} []
           [(VStr "x", VNum 0.7)] (VStr "y") VNone).
  - reflexivity.
  - apply List.Forall2_cons; [eapply hit_scored; reflexivity|apply List.Forall2_nil].
  - reflexivity.
  - reflexivity.
  - discriminate.
Defined.

Lemma queries_hits_not_iterable_raises_witness :
  queries (services_with VNone) "hello" 5 4 w_init
  = (Raise TypeError, (retrieve (services_with VNone) "hello" 5 w_init).2).
Proof.
  apply (queries_hits_not_iterable_raises (services_with VNone)
           "hello" 5 4 w_init _ VNone).
  - reflexivity.
  - by left.
Defined.

(** ** The embedding answer and the search that follows *)

Section Search.
Context (E : services).

Lemma seq_index_0 v l : seq_index (v :: l) 0 = Ok v.
Proof.
  unfold seq_index. cbn -[Z.of_nat Z.leb length].
  destruct (Z.leb_spec (Z.of_nat (length (v :: l))) 0) as [H|H]; [cbn in H; lia|done].
Qed.

Lemma first_embedding e0 more embedding :
  e0 !! "embedding" = embedding →
  (x ← getitem (VList (VDict e0 :: more)) (KInt 0); getitem x (KStr "embedding"))
  = match embedding with
    | Some v => Ok v
    | None => Raise (KeyError (KStr "embedding"))
    end.
Proof. intros <-. cbn [getitem]. by rewrite seq_index_0. Qed.

Lemma embed_text_ok text w response body embeddings :
  requests_post E (embedding_request (api_key w) text) = Ok response →
  r_status_code response = 200 →
  r_json response = Ok body →
  getitem body (KStr "data") = Ok embeddings →
  embed_text E text w = (Ok embeddings, w).
Proof.
  intros Hr Hs Hj Hd. unfold embed_text, mbind, M_bind, lift. cbn.
  rewrite Hr, Hs. cbn. by rewrite Hj, Hd.
Qed.

Lemma embed_text_200_raises text w response e :
  requests_post E (embedding_request (api_key w) text) = Ok response →
  r_status_code response = 200 →
  (body ← r_json response; getitem body (KStr "data")) = Raise e →
  embed_text E text w = (Raise e, w).
Proof.
  intros Hr Hs Hj. unfold embed_text, mbind, M_bind, lift. cbn.
  rewrite Hr, Hs. cbn. destruct (r_json response) as [body|]; cbn in *.
  - by rewrite Hj.
  - by injection Hj as ->.
Qed.

Lemma retrieve_bad_embedding query top_k w response e :
  requests_post E (embedding_request (api_key w) query) = Ok response →
  bad_embedding response e →
  retrieve E query top_k w = (Raise e, w).
Proof.
  intros Hr Hbad. unfold retrieve. unfold mbind at 1, M_bind at 1.
  destruct Hbad as [response e Hs Hj | response d Hs Hj Hd
                   | response d Hs Hj Hd | response d e0 more Hs Hj Hd He].
  - assert (embed_text E query w = (Raise e, w)) as ->; [|done].
    eapply embed_text_200_raises; [done..|]. by rewrite Hj.
  - assert (embed_text E query w = (Raise (KeyError (KStr "data")), w)) as ->; [|done].
    eapply embed_text_200_raises; [done..|]. rewrite Hj. cbn. by rewrite Hd.
  - assert (embed_text E query w = (Ok (VList []), w)) as ->; [|done].
    eapply embed_text_ok; [done..|]. cbn. by rewrite Hd.
  - assert (embed_text E query w = (Ok (VList (VDict e0 :: more)), w)) as ->.
    { eapply embed_text_ok; [done..|]. cbn. by rewrite Hd. }
    pose proof (first_embedding e0 more _ He) as Hf.
    unfold mbind, M_bind, lift in *. cbn in *.
    destruct (seq_index _ _); cbn in *; by rewrite Hf.
Qed.

(** X8: only the store's response is guarded.  When the embedding
    service answers 200 with a body that is not JSON, has no ['data'],
    has an empty ['data'] list or a first entry without ['embedding'],
    [queries] raises the corresponding exception (a [KeyError] included)
    instead of returning the key-error message, and the store is never
    asked. *)
Theorem queries_bad_embedding_answer_raises query top_k top_p w response e :
  requests_post E (embedding_request (api_key w) query) = Ok response →
  bad_embedding response e →
  queries E query top_k top_p w = (Raise e, w).
Proof.
  intros Hr Hbad. unfold queries, mbind, M_bind.
  by rewrite (retrieve_bad_embedding _ _ _ _ _ Hr Hbad).
Qed.

Lemma retrieve_ok query top_k w response embedding :
  requests_post E (embedding_request (api_key w) query) = Ok response →
  embedding_answer response embedding →
  retrieve E query top_k w
  = (near_vector E (classes (client w)) (collection_name w)
       (VDict {[ "vector" := embedding ]}) top_k,
     searched w embedding top_k).
Proof.
  intros Hr (Hs & d & e0 & more & Hj & Hd & He). unfold retrieve.
  assert (embed_text E query w = (Ok (VList (VDict e0 :: more)), w)) as Hemb.
  { eapply embed_text_ok; [done..|]. cbn. by rewrite Hd. }
  unfold mbind at 1, M_bind at 1. rewrite Hemb.
  pose proof (first_embedding e0 more _ He) as Hf.
  unfold mbind, M_bind, lift in *. cbn in *.
  destruct (seq_index _ _); cbn in *; [|done]. by rewrite Hf.
Qed.

(** X9: on a usable embedding answer [queries] asks the store exactly
    once: for the class named by [collection_name], property [chunk],
    additional [certainty], limit [top_k], near the first embedding of
    the answer (further entries are ignored).  Nothing else in the world
    changes, and the search result is handed on as it is, an exception
    of the store included. *)
Theorem retrieve_sends_one_search query top_k w response embedding :
  requests_post E (embedding_request (api_key w) query) = Ok response →
  embedding_answer response embedding →
  let w' := (retrieve E query top_k w).2 in
  (retrieve E query top_k w).1
  = near_vector E (classes (client w)) (collection_name w)
      (VDict {[ "vector" := embedding ]}) top_k ∧
  requests (client w')
  = requests (client w)
      ++ [QueryGet (collection_name w) ["chunk"]
            (VDict {[ "vector" := embedding ]}) top_k ["certainty"]] ∧
  classes (client w') = classes (client w) ∧
  pending (client w') = pending (client w) ∧
  stdout w' = stdout w ∧
  prompts w' = prompts w.
Proof.
  intros Hr Ha. by rewrite (retrieve_ok _ _ _ _ _ Hr Ha).
Qed.

(** X10: the whole query path on a well-formed answer.  When the
    embedding answer is usable and the store returns hits that each carry
    a text and a numeric score or none, [queries] returns the texts of
    the first [top_p] hits in stable descending score order (a missing
    score counting as 0), joined by blank lines; it prints nothing, and
    its only effect is the one search. *)
Theorem queries_returns_reranked_context
    query top_k top_p w response embedding (ths : list (string * option Q)) s :
  requests_post E (embedding_request (api_key w) query) = Ok response →
  embedding_answer response embedding →
  near_vector E (classes (client w)) (collection_name w)
    (VDict {[ "vector" := embedding ]}) top_k
  = Ok (envelope (collection_name w) (VList (typed_hit <$> ths))) →
  stable_sort_desc (scored <$> ths) s →
  0 ≤ top_p →
  queries E query top_k top_p w
  = (Ok (String.concat (nl +:+ nl) ((take (Z.to_nat top_p) s).*1)),
     searched w embedding top_k).
Proof.
  intros Hr Ha Hn Hs Hp.
  pose proof (retrieve_ok query top_k _ _ _ Hr Ha) as Hret. rewrite Hn in Hret.
  rewrite (queries_after_retrieve _ _ _ _ _ _ _ Hret).
  change (collection_name (searched w embedding top_k)) with (collection_name w).
  rewrite results_with_scores_envelope. cbn.
  rewrite (results_loop_candidates _ _ _ (typed_hits_candidates ths)).
  cbn [app]. apply stable_sort_desc_unique in Hs as ->. by rewrite rerank_cands.
Qed.

End Search.

Lemma queries_bad_embedding_answer_raises_witness :
  bad_embedding embedding_no_data (KeyError (KStr "data")) ∧
  queries (demo_services (Ok embedding_no_data) (Ok VNone)) "hello" 5 4 w_init
  = (Raise (KeyError (KStr "data")), w_init).
Proof.
  assert (bad_embedding embedding_no_data (KeyError (KStr "data"))) as Hbad
    by (eapply bad_no_data; reflexivity).
  split; [exact Hbad|].
  exact (queries_bad_embedding_answer_raises
           (demo_services (Ok embedding_no_data) (Ok VNone))
           "hello" 5 4 w_init embedding_no_data _ eq_refl Hbad).
Defined.

Lemma embedding_ok_answer :
  embedding_answer embedding_ok (VList [VNum 0.25; VNum 0.5]).
Proof. split; [reflexivity|]. by eexists _, _, _. Defined.

Lemma retrieve_sends_one_search_witness :
  embedding_answer embedding_ok (VList [VNum 0.25; VNum 0.5]) ∧
  requests (client (retrieve services_ok "hello" 5 w_init).2)
  = [QueryGet "Article" ["chunk"]
       (VDict {[ "vector" := VList [VNum 0.25; VNum 0.5] ]}) 5 ["certainty"]].
Proof.
  split; [exact embedding_ok_answer|].
  exact (proj1 (proj2 (retrieve_sends_one_search services_ok "hello" 5 w_init
                         embedding_ok _ eq_refl embedding_ok_answer))).
Defined.

Lemma queries_returns_reranked_context_witness :
  stable_sort_desc (scored <$> [("x", Some 0.7%Q); ("z", None); ("y", Some 0.95%Q)])
    [("y", 0.95%Q); ("x", 0.7%Q); ("z", 0%Q)] ∧
  queries (services_with (VList (typed_hit <$>
             [("x", Some 0.7%Q); ("z", None); ("y", Some 0.95%Q)])))
          "hello" 5 2 w_init
  = (Ok ("y" +:+ nl +:+ nl +:+ "x"),
     searched w_init (VList [VNum 0.25; VNum 0.5]) 5).
Proof.
  assert (stable_sort_desc
            (scored <$> [("x", Some 0.7%Q); ("z", None); ("y", Some 0.95%Q)])
            [("y", 0.95%Q); ("x", 0.7%Q); ("z", 0%Q)]) as Hs
    by exact (sort_cands_spec
                (scored <$> [("x", Some 0.7%Q); ("z", None); ("y", Some 0.95%Q)])).
  split; [exact Hs|].
  refine (queries_returns_reranked_context
            (services_with (VList (typed_hit <$>
               [("x", Some 0.7%Q); ("z", None); ("y", Some 0.95%Q)])))
            "hello" 5 2 w_init embedding_ok _
            [("x", Some 0.7%Q); ("z", None); ("y", Some 0.95%Q)] _
            eq_refl embedding_ok_answer eq_refl Hs _).
  lia.
Defined.

(** ** More on [index] *)

Section IndexEdges.
Context (E : services).

Implicit Types (w : world).

(** X11: indexing touches one class only.  Started with nothing queued,
    [index] leaves every class other than the one named by
    [collection_name] exactly as it was. *)
Theorem index_leaves_other_classes filename cs co groups w other :
  chunked_doc E filename cs co = Ok groups →
  pending (client w) = [] →
  other ≠ collection_name w →
  classes (client (index E filename cs co w).2) !! other
  = classes (client w) !! other.
Proof.
  intros Hg Hp Hne. rewrite (index_eq _ _ _ _ _ _ Hg).
  destruct (index_chunks_spec (concat groups) w Hp)
    as (bs & w' & -> & _ & _ & _ & Hcl & _).
  cbn. rewrite Hcl. by rewrite lookup_insert_ne.
Qed.

(** X12: indexing is idempotent on the store's contents.  Indexing the
    same document a second time, with the same chunking, leaves every
    class as the first run left it. *)
Theorem index_twice_same_classes filename cs co groups w :
  chunked_doc E filename cs co = Ok groups →
  pending (client w) = [] →
  ∃ w1 w2,
    index E filename cs co w = (Ok VNone, w1) ∧
    index E filename cs co w1 = (Ok VNone, w2) ∧
    classes (client w2) = classes (client w1).
Proof.
  intros Hg Hp.
  destruct (index_chunks_spec (concat groups) w Hp)
    as (bs & w1 & Hrun1 & _ & _ & _ & Hcl1 & Hp1 & _ & Hn1).
  destruct (index_chunks_spec (concat groups) w1 Hp1)
    as (bs2 & w2 & Hrun2 & _ & _ & _ & Hcl2 & _).
  exists w1, w2. rewrite !(index_eq _ _ _ _ _ _ Hg). split_and!; [done..|].
  rewrite Hcl2, Hn1, Hcl1. apply insert_insert_eq.
Qed.

(** X13: a document without chunks (no pages, or pages that split into
    nothing) still replaces the collection: the class is deleted if it
    was there and created empty, no batch is sent, and the count printed
    is 0. *)
Theorem index_empty_document filename cs co groups w :
  chunked_doc E filename cs co = Ok groups →
  concat groups = [] →
  pending (client w) = [] →
  let name := collection_name w in
  ∃ w',
    index E filename cs co w = (Ok VNone, w') ∧
    requests (client w')
    = requests (client w) ++ [SchemaExists name]
        ++ (if bool_decide (is_Some (classes (client w) !! name))
            then [SchemaDeleteClass name] else [])
        ++ [SchemaCreateClass (chunk_class name); QueryAggregate name] ∧
    classes (client w') !! name = Some (Collection (chunk_class name) []) ∧
    stdout w' = stdout w ++ [[VStr "Data indexed successfully!"];
                             [count_response name 0]].
Proof.
  intros Hg Hnil Hp name.
  destruct (index_chunks_spec [] w Hp)
    as (bs & w' & Hrun & Hcat & (Hbs & _) & Hreq & Hcl & _ & Hout & _).
  fold name in Hcat, Hreq, Hcl, Hout. exists w'.
  rewrite (index_eq _ _ _ _ _ _ Hg), Hnil.
  assert (bs = []) as ->.
  { destruct bs as [|b bs]; [done|]. apply Forall_cons in Hbs as [Hb _].
    cbn in Hcat. apply app_eq_nil in Hcat as [-> _]. cbn in Hb. lia. }
  split_and!; [done| |by rewrite Hcl, lookup_insert_eq|done].
  rewrite Hreq. by case_bool_decide.
Qed.

Lemma chunk_pages_raises before p after cs co e :
  Forall (fun q => ∃ g, split_text E q cs co = Ok g) before →
  split_text E p cs co = Raise e →
  chunk_pages E (before ++ p :: after) cs co = Raise e.
Proof.
  intros Hb Hp. induction Hb as [|q before [g Hq] _ IH]; cbn.
  - unfold chunkRecursively. by rewrite Hp.
  - unfold chunkRecursively at 1. rewrite Hq. cbn. by rewrite IH.
Qed.

(** X14: indexing is all or nothing with respect to reading the
    document.  If the loader raises, or any page fails to split (the
    pages before it having split), [index] raises that exception before
    it has touched the store: an existing collection is not deleted and
    nothing is printed. *)
Theorem index_read_failure_leaves_store filename cs co w e :
  PyPDFLoader_load E filename = Raise e ∨
  (∃ before p after,
     PyPDFLoader_load E filename = Ok (before ++ p :: after) ∧
     Forall (fun q => ∃ g, split_text E q cs co = Ok g) before ∧
     split_text E p cs co = Raise e) →
  index E filename cs co w = (Raise e, w).
Proof.
  intros H. unfold index, mbind, M_bind, lift.
  assert (chunked_doc E filename cs co = Raise e) as ->; [|done].
  unfold chunked_doc, docLoader.
  destruct H as [->|(before & p & after & -> & Hb & Hp)]; [done|].
  cbn. by apply chunk_pages_raises.
Qed.

Lemma chunk_pages_groups pages cs co groups :
  chunk_pages E pages cs co = Ok groups ↔
  Forall2 (fun p g => split_text E p cs co = Ok g) pages groups.
Proof.
  revert groups. induction pages as [|p pages IH]; intros groups; cbn.
  - split; [by intros [= <-]; constructor | by intros ->%Forall2_nil_inv_l].
  - unfold chunkRecursively. split.
    + destruct (split_text E p cs co) as [g|] eqn:Hp; cbn; [|done].
      destruct (chunk_pages E pages cs co) as [gs|] eqn:Hgs; cbn; [|done].
      intros [= <-]. constructor; [done|]. by apply IH.
    + intros (g & gs & Hp & Hgs & ->)%Forall2_cons_inv_l.
      rewrite Hp. cbn. apply IH in Hgs. by rewrite Hgs.
Qed.

(** X15: the chunk groups follow the document: [index] gets exactly one
    group per page, in page order, each the splitter's output for that
    page with the given [chunk_size] and [chunk_overlap]. *)
Theorem chunked_doc_one_group_per_page filename cs co groups :
  chunked_doc E filename cs co = Ok groups ↔
  ∃ pages, PyPDFLoader_load E filename = Ok pages ∧
           Forall2 (fun p g => split_text E p cs co = Ok g) pages groups.
Proof.
  unfold chunked_doc, docLoader. split.
  - destruct (PyPDFLoader_load E filename) as [pages|]; cbn; [|done].
    intros H. exists pages. split; [done|]. by apply chunk_pages_groups.
  - intros (pages & -> & H). cbn. by apply chunk_pages_groups.
Qed.

Lemma fixed_size_batches_cons {A} (k : nat) (b b' : list A) bs :
  fixed_size_batches k (b :: b' :: bs) →
  length b = k ∧ fixed_size_batches k (b' :: bs).
Proof.
  intros [Hall Hfull]. split; [|split].
  - apply (Hfull 0%nat b); [done|cbn; lia].
  - by apply Forall_cons in Hall as [_ ?].
  - intros i x Hi Hlt. apply (Hfull (S i) x); [done|cbn in *; lia].
Qed.

Lemma batch_lengths {A} (k : nat) (bs : list (list A)) :
  (0 < k)%nat → fixed_size_batches k bs →
  length <$> bs = batch_plan k (length (concat bs)).
Proof.
  intros Hk. unfold batch_plan.
  induction bs as [|b [|b' bs] IH]; intros Hbs.
  - cbn. rewrite Nat.Div0.div_0_l, Nat.Div0.mod_0_l. done.
  - destruct Hbs as [Hall _]. apply Forall_cons in Hall as [Hb _].
    cbn. rewrite app_nil_r.
    destruct (decide (length b = k)) as [->|Hne].
    + rewrite Nat.div_same, Nat.Div0.mod_same by lia. done.
    + rewrite Nat.div_small, Nat.mod_small by lia. cbn.
      rewrite (proj2 (Nat.eqb_neq _ _)) by lia. done.
  - apply fixed_size_batches_cons in Hbs as [Hb Hrest].
    specialize (IH Hrest). rewrite fmap_cons, IH.
    change (concat (b :: b' :: bs)) with (b ++ concat (b' :: bs)).
    rewrite length_app, Hb.
    set (m := length (concat (b' :: bs))).
    replace ((k + m) / k)%nat with (S (m / k)).
    2:{ replace (k + m)%nat with (1 * k + m)%nat by lia.
        rewrite Nat.div_add_l by lia. lia. }
    replace ((k + m) mod k)%nat with (m mod k)%nat.
    2:{ replace (k + m)%nat with (m + 1 * k)%nat by lia.
        by rewrite Nat.Div0.mod_add. }
    done.
Qed.

Lemma batch_sizes_app rs rs' : batch_sizes (rs ++ rs') = batch_sizes rs ++ batch_sizes rs'.
Proof. apply omap_app. Qed.

Lemma batch_sizes_batches bs : batch_sizes (BatchCreate <$> bs) = length <$> bs.
Proof. induction bs as [|b bs IH]; [done|]. cbn. by rewrite <- IH. Qed.

(** X16: the batches [index] sends are as many batches of 100 as the
    chunks fill, followed by one batch with the remainder when the chunk
    count is not a multiple of 100; there is never an empty batch. *)
Theorem index_batch_sizes filename cs co groups w :
  chunked_doc E filename cs co = Ok groups →
  pending (client w) = [] →
  batch_sizes (requests (client (index E filename cs co w).2))
  = batch_sizes (requests (client w)) ++ batch_plan 100 (length (concat groups)).
Proof.
  intros Hg Hp. rewrite (index_eq _ _ _ _ _ _ Hg).
  destruct (index_chunks_spec (concat groups) w Hp)
    as (bs & w' & -> & Hcat & Hbs & Hreq & _).
  cbn [snd]. rewrite Hreq. rewrite !batch_sizes_app, batch_sizes_batches.
  rewrite (batch_lengths 100 bs) by (lia || done).
  rewrite Hcat, length_fmap, chunk_objects_length.
  case_bool_decide; cbn; by rewrite app_nil_r.
Qed.

End IndexEdges.

Lemma index_leaves_other_classes_witness :
  classes (client (index services_ok "a.pdf" 1000 250 w_notes).2) !! "Notes"
  = Some (Collection VNone [VStr "n"]).
Proof.
  rewrite (index_leaves_other_classes services_ok "a.pdf" 1000 250
             [["p1-1"; "p1-2"]; ["p2-1"; "p2-2"]] w_notes "Notes" eq_refl eq_refl);
    [reflexivity|discriminate].
Defined.

Lemma index_empty_document_witness :
  ∃ w',
    index (services_reading (fun _ => Ok []) (fun _ => Ok [])) "a.pdf" 1000 250 w_init
    = (Ok VNone, w') ∧
    requests (client w')
    = [SchemaExists "Article"; SchemaCreateClass (chunk_class "Article");
       QueryAggregate "Article"] ∧
    classes (client w') !! "Article" = Some (Collection (chunk_class "Article") []) ∧
    stdout w' = [[VStr "Data indexed successfully!"]; [count_response "Article" 0]].
Proof.
  exact (index_empty_document (services_reading (fun _ => Ok []) (fun _ => Ok []))
           "a.pdf" 1000 250 [] w_init eq_refl eq_refl eq_refl).
Defined.

Lemma index_read_failure_leaves_store_witness :
  index (services_reading (fun _ => Ok ["p1"; "p2"])
           (fun t => if bool_decide (t = "p2") then Raise ValueError else Ok [t]))
        "a.pdf" 1000 250 w_notes
  = (Raise ValueError, w_notes).
Proof.
  apply index_read_failure_leaves_store. right.
  exists ["p1"], "p2", []. split_and!; [reflexivity| |reflexivity].
  apply Forall_singleton. by eexists.
Defined.

Lemma index_twice_same_classes_witness :
  ∃ w1 w2,
    index services_ok "a.pdf" 1000 250 w_init = (Ok VNone, w1) ∧
    index services_ok "a.pdf" 1000 250 w1 = (Ok VNone, w2) ∧
    classes (client w2) = classes (client w1).
Proof.
  exact (index_twice_same_classes services_ok "a.pdf" 1000 250
           [["p1-1"; "p1-2"]; ["p2-1"; "p2-2"]] w_init eq_refl eq_refl).
Defined.

Lemma index_batch_sizes_witness :
  batch_sizes (requests (client (index services_ok "a.pdf" 1000 250 w_init).2))
  = [4%nat].
Proof.
  exact (index_batch_sizes services_ok "a.pdf" 1000 250
           [["p1-1"; "p1-2"]; ["p2-1"; "p2-2"]] w_init eq_refl eq_refl).
Defined.

(** ** The interactive loop and [__main__] *)

Section Loop.
Context (E : services).

Implicit Types (w : world).

Lemma embed_text_prompts text w : prompts (embed_text E text w).2 = prompts w.
Proof.
  unfold embed_text, mbind, M_bind, lift, get_world. cbn.
  repeat case_match; simplify_eq/=; done.
Qed.

Lemma retrieve_prompts query top_k w : prompts (retrieve E query top_k w).2 = prompts w.
Proof.
  unfold retrieve. unfold mbind at 1, M_bind at 1.
  pose proof (embed_text_prompts query w) as He.
  destruct (embed_text E query w) as [[e|ex] w1]; cbn in He; [|done].
  unfold query_get, mbind, M_bind, lift, get_world, log_request. cbn.
  repeat case_match; simplify_eq/=; done.
Qed.

(** [queries] never calls the chat model. *)
Lemma queries_prompts query top_k top_p w :
  prompts (queries E query top_k top_p w).2 = prompts w.
Proof.
  unfold queries. unfold mbind at 1, M_bind at 1.
  pose proof (retrieve_prompts query top_k w) as Hr.
  destruct (retrieve E query top_k w) as [[r|ex] w1]; cbn in Hr; [|done].
  unfold mbind, M_bind, lift, get_world, raise. cbn.
  repeat case_match; simplify_eq/=; done.
Qed.

Lemma M_bind_ext {A B} (m : M A) (f g : A → M B) w :
  (∀ a w', f a w' = g a w') → (m ≫= f) w = (m ≫= g) w.
Proof.
  intros H. unfold mbind, M_bind. destruct (m w) as [[a|e] w']; [apply H|done].
Qed.

Lemma repl_cons query rest top_k w :
  query ≠ "q" →
  repl E top_k (query :: rest) w
  = (context ← queries E query top_k 4;
     answer ← answer_query E query context;
     _ ← print [VStr answer];
     repl E top_k rest) (add_stdout w input_prompt).
Proof.
  intros Hq. cbn [repl]. unfold mbind at 1, M_bind at 1. cbn [print].
  by rewrite bool_decide_eq_false_2.
Qed.

Lemma repl_q rest top_k w :
  repl E top_k ("q" :: rest) w
  = (Ok tt, add_stdout (add_stdout w input_prompt) [VStr "Exiting..."]).
Proof. done. Qed.

(** X17: the loop stops at the first [q]: whatever is typed after it is
    never read, so it changes neither the outcome nor the world. *)
Theorem repl_ignores_input_after_q top_k qs rest w :
  repl E top_k (qs ++ "q" :: rest) w = repl E top_k (qs ++ ["q"]) w.
Proof.
  revert w. induction qs as [|query qs IH]; intros w; [done|].
  destruct (decide (query = "q")) as [->|Hq]; [done|].
  rewrite <- !app_comm_cons, !repl_cons by done.
  apply M_bind_ext. intros context w1.
  apply M_bind_ext. intros answer w2.
  apply M_bind_ext. intros _ w3. apply IH.
Qed.

(** When the loop ends normally, the input had a [q]; every line before
    it was answered by one call of the chat model, in order, with that
    line as the question. *)
Lemma repl_ok_inv top_k inputs w :
  (repl E top_k inputs w).1 = Ok tt →
  ∃ qs rest contexts,
    inputs = qs ++ "q" :: rest ∧
    ("q" ∉ qs) ∧
    length contexts = length qs ∧
    prompts (repl E top_k inputs w).2
    = prompts w ++ zip_with render_prompt qs contexts.
Proof.
  revert w. induction inputs as [|query inputs IH]; intros w; [done|].
  destruct (decide (query = "q")) as [->|Hq].
  - intros _. exists [], inputs, []. rewrite repl_q. cbn.
    split_and!; [done|apply not_elem_of_nil|done|by rewrite app_nil_r].
  - rewrite repl_cons by done. unfold answer_query, mbind, M_bind.
    pose proof (queries_prompts query top_k 4 (add_stdout w input_prompt)) as Hp.
    destruct (queries E query top_k 4 _) as [[context|ex] w1]; [|done].
    cbn in Hp. cbn [log_prompt lift print].
    destruct (chat E (render_prompt query context)) as [answer|ex]; [|done].
    intros Hok. destruct (IH _ Hok) as (qs & rest & contexts & -> & Hnq & Hlen & Hpr).
    exists (query :: qs), rest, (context :: contexts).
    split_and!; [done| |cbn; lia|].
    + apply not_elem_of_cons. by split.
    + rewrite Hpr. cbn. rewrite Hp. by rewrite <- app_assoc.
Qed.


Lemma queries_embedding_failed query top_k top_p w :
  embedding_failed (requests_post E (embedding_request (api_key w) query)) →
  ∃ e w', queries E query top_k top_p w = (Raise e, w') ∧
          client w' = client w ∧ prompts w' = prompts w.
Proof.
  intros Hf.
  destruct (requests_post E (embedding_request (api_key w) query))
    as [response|e'] eqn:Hr; cbn in Hf.
  - exists TypeError, (add_stdout w (embedding_failure_line response)).
    split; [|done]. unfold queries, retrieve, mbind, M_bind.
    by rewrite (embed_text_non_200 _ _ _ _ Hr Hf).
  - exists e', w. split; [|done]. unfold queries, retrieve, mbind, M_bind.
    by rewrite (embed_text_raises _ _ _ _ Hr).
Qed.

(** X19: one failed embedding ends the whole session.  If the embedding
    request for a query fails, the loop ends with an exception at that
    query: the chat model is not called, the store is not asked, and the
    lines typed after it are never served. *)
Theorem repl_failed_embedding_ends_session query rest top_k w :
  query ≠ "q" →
  embedding_failed (requests_post E (embedding_request (api_key w) query)) →
  ∃ e w', repl E top_k (query :: rest) w = (Raise e, w') ∧
          client w' = client w ∧ prompts w' = prompts w.
Proof.
  intros Hq Hf. rewrite repl_cons by done.
  destruct (queries_embedding_failed query top_k 4 (add_stdout w input_prompt) Hf)
    as (e & w' & Hqs & Hc & Hp).
  exists e, w'. unfold mbind, M_bind. by rewrite Hqs.
Qed.



(** X21: a session that ends normally.  The input had a [q]; every line
    typed before it was answered by exactly one call of the chat model,
    in the order typed, the prompt being rendered from that line and some
    context; and the store was only read. *)
Theorem repl_answers_each_line_once top_k inputs w :
  (repl E top_k inputs w).1 = Ok tt →
  ∃ qs rest contexts,
    inputs = qs ++ "q" :: rest ∧
    ("q" ∉ qs) ∧
    length contexts = length qs ∧
    prompts (repl E top_k inputs w).2
    = prompts w ++ zip_with render_prompt qs contexts ∧
    read_only (client w) (client (repl E top_k inputs w).2).
Proof.
  intros Hr. destruct (repl_ok_inv _ _ _ Hr) as (qs & rest & contexts & H1 & H2 & H3 & H4).
  exists qs, rest, contexts. split_and!; [done..|]. apply repl_read_only.
Qed.

End Loop.


Lemma repl_failed_embedding_ends_session_witness :
  ∃ e w', repl services_embedding_500 5 ["hello"; "again"; "q"] w_init = (Raise e, w') ∧
          client w' = client w_init ∧ prompts w' = prompts w_init.
Proof.
  apply (repl_failed_embedding_ends_session services_embedding_500
           "hello" ["again"; "q"] 5 w_init).
  - discriminate.
  - cbn. lia.
Defined.


Lemma repl_answers_each_line_once_witness :
  (repl services_ok 5 ["hello"; "q"; "later"] w_init).1 = Ok tt ∧
  ∃ qs rest contexts,
    ["hello"; "q"; "later"] = qs ++ "q" :: rest ∧
    ("q" ∉ qs) ∧
    length contexts = length qs ∧
    prompts (repl services_ok 5 ["hello"; "q"; "later"] w_init).2
    = prompts w_init ++ zip_with render_prompt qs contexts ∧
    read_only (client w_init)
      (client (repl services_ok 5 ["hello"; "q"; "later"] w_init).2).
Proof.
  assert ((repl services_ok 5 ["hello"; "q"; "later"] w_init).1 = Ok tt)
    as H by (vm_compute; reflexivity).
  split; [exact H|].
  exact (repl_answers_each_line_once services_ok 5 ["hello"; "q"; "later"] w_init H).
Defined.

(** * Properties of [src/rag_demo.py] *)

(** ** [str.split] and [str.join] *)

Section Words.

Implicit Types (c : N) (w cur s t : list N) (ws ts : list (list N)).

Lemma split_ws_aux_app_space cur s c t :
  is_space c = true →
  split_ws_aux cur (s ++ c :: t) = split_ws_aux cur s ++ split_ws t.
Proof.
  intros Hc. revert cur. induction s as [|x s IH]; intros cur; cbn.
  - rewrite Hc. by destruct cur.
  - destruct (is_space x); [|apply IH]. destruct cur; cbn; by rewrite IH.
Qed.

Lemma split_ws_aux_nonspace cur w :
  Forall (fun c => is_space c = false) w →
  split_ws_aux cur w = match cur ++ w with [] => [] | _ :: _ => [cur ++ w] end.
Proof.
  intros Hw. revert cur. induction Hw as [|x w Hx _ IH]; intros cur; cbn.
  - rewrite app_nil_r. by destruct cur.
  - rewrite Hx, IH. by rewrite <- app_assoc.
Qed.

Lemma split_ws_word w : is_word w → split_ws w = [w].
Proof.
  intros [Hne Hw]. unfold split_ws. rewrite split_ws_aux_nonspace by done.
  cbn. by destruct w.
Qed.

Lemma split_ws_aux_words cur s :
  Forall (fun c => is_space c = false) cur →
  Forall is_word (split_ws_aux cur s).
Proof.
  revert cur. induction s as [|x s IH]; intros cur Hcur; cbn.
  - destruct cur; [constructor|]. apply Forall_singleton. by split.
  - destruct (is_space x) eqn:Hx.
    + destruct cur; [by apply IH|]. constructor; [by split|]. by apply IH.
    + apply IH. apply Forall_app. split; [done|]. by apply Forall_singleton.
Qed.

Lemma split_ws_words s : Forall is_word (split_ws s).
Proof. by apply split_ws_aux_words. Qed.

(** Joining with one white-space character and splitting again splits
    each part on its own. *)
Lemma split_ws_join c ts :
  is_space c = true →
  split_ws (join_with [c] ts) = concat (split_ws <$> ts).
Proof.
  intros Hc. induction ts as [|t [|t' ts] IH].
  - done.
  - cbn. by rewrite app_nil_r.
  - change (join_with [c] (t :: t' :: ts)) with (t ++ c :: join_with [c] (t' :: ts)).
    unfold split_ws at 1. rewrite split_ws_aux_app_space by done.
    by rewrite IH.
Qed.

Lemma split_ws_join_words ws :
  Forall is_word ws → split_ws (join_with space ws) = ws.
Proof.
  intros Hws. unfold space. rewrite split_ws_join by done.
  induction Hws as [|w ws Hw _ IH]; [done|].
  cbn. rewrite split_ws_word by done. cbn. by f_equal.
Qed.

Lemma join_with_nil_inv ws :
  Forall is_word ws → join_with space ws = [] → ws = [].
Proof.
  intros Hws Hj. apply (f_equal split_ws) in Hj.
  by rewrite split_ws_join_words in Hj.
Qed.

End Words.

(** ** [chunk_text] *)

Section Chunking.

Implicit Types (w c text : list N) (ws words : list (list N)) (G : list (list (list N))).

Lemma py_slice_take_drop {A} (l : list A) (i k : nat) :
  py_slice l (Z.of_nat i) (Z.of_nat i + Z.of_nat k) = take k (drop i l).
Proof.
  unfold py_slice, clamp.
  rewrite (proj2 (Z.ltb_ge _ 0)), (proj2 (Z.ltb_ge _ 0)) by lia.
  destruct (decide (i ≤ length l)%nat) as [Hi|Hi].
  - rewrite (Z.min_l (Z.of_nat i)), Nat2Z.id by lia.
    destruct (decide (i + k ≤ length l)%nat) as [Hk|Hk].
    + rewrite Z.min_l by lia. f_equal. lia.
    + rewrite Z.min_r by lia.
      rewrite !take_ge; [done|rewrite length_drop; lia..].
  - rewrite !drop_ge by lia. by rewrite !take_nil.
Qed.

Lemma fixed_size_batches_build {A} (k : nat) (g : list A) (bs : list (list A)) :
  (0 < length g ≤ k)%nat →
  (bs ≠ [] → length g = k) →
  fixed_size_batches k bs →
  fixed_size_batches k (g :: bs).
Proof.
  intros Hg Hfull [Hall Hbs]. split; [by constructor|].
  intros [|i] b Hi Hlt; cbn in *.
  - injection Hi as <-. apply Hfull. intros ->. cbn in Hlt. lia.
  - apply (Hbs i b Hi). lia.
Qed.

Lemma fixed_size_batches_nil {A} (k : nat) : fixed_size_batches k (@nil (list A)).
Proof. split; [constructor|]. intros i b Hi. by rewrite lookup_nil in Hi. Qed.

(** The word groups behind the chunks: the slices of [words] that the
    comprehension takes, from index [i] on. *)
Lemma word_groups words (k fuel i : nat) :
  (0 < k)%nat → (length words ≤ i + fuel)%nat →
  let G := (fun j => py_slice words j (j + Z.of_nat k))
             <$> range_from fuel (Z.of_nat i) (Z.of_nat (length words)) (Z.of_nat k) in
  concat G = drop i words ∧
  fixed_size_batches k G ∧
  (G ≠ [] → (i < length words)%nat).
Proof.
  intros Hk. revert i. induction fuel as [|fuel IH]; intros i Hfuel; cbn zeta.
  - cbn. rewrite drop_ge by lia.
    split_and!; [done|apply fixed_size_batches_nil|done].
  - cbn [range_from]. rewrite (proj2 (Z.ltb_lt 0 (Z.of_nat k))) by lia.
    destruct (Z.ltb_spec (Z.of_nat i) (Z.of_nat (length words))) as [Hlt|Hge].
    + rewrite fmap_cons, py_slice_take_drop, <- Nat2Z.inj_add.
      destruct (IH (i + k)%nat) as (Hcat & Hbs & Hne); [lia|]. cbn zeta in *.
      split_and!; [| |lia].
      * cbn [concat]. rewrite Hcat.
        rewrite <- (drop_drop words k i). apply take_drop.
      * apply fixed_size_batches_build; [| |done].
        -- rewrite length_take, length_drop. lia.
        -- intros Hrest. specialize (Hne Hrest).
           rewrite length_take, length_drop. lia.
    + cbn. rewrite drop_ge by lia.
      split_and!; [done|apply fixed_size_batches_nil|done].
Qed.

Lemma chunk_text_groups text size :
  0 < size →
  ∃ G, chunk_text text size = Ok (join_with space <$> G) ∧
       concat G = split_ws text ∧
       fixed_size_batches (Z.to_nat size) G ∧
       split_ws <$> (join_with space <$> G) = G.
Proof.
  intros Hs. unfold chunk_text, py_range.
  rewrite (proj2 (Z.eqb_neq size 0)) by lia.
  rewrite Z.sub_0_r, Z.abs_eq, Nat2Z.id by lia.
  pose proof (word_groups (split_ws text) (Z.to_nat size)
                (length (split_ws text)) 0) as Hg.
  rewrite Z2Nat.id in Hg by lia. cbn zeta in Hg.
  destruct Hg as (Hcat & Hbs & _); [lia|lia|].
  change (Z.of_nat 0) with 0 in *. rewrite drop_0 in Hcat.
  set (G := (fun j => py_slice (split_ws text) j (j + size))
              <$> range_from (length (split_ws text)) 0
                    (Z.of_nat (length (split_ws text))) size) in *.
  exists G. split_and!; [|done..|].
  - unfold G. by rewrite <- list_fmap_compose.
  - assert (Forall (Forall is_word) G) as Hwords.
    { apply Forall_concat. rewrite Hcat. apply split_ws_words. }
    clearbody G. clear Hcat Hbs.
    induction Hwords as [|g G Hgw _ IH]; [done|].
    cbn. rewrite split_ws_join_words by done. by f_equal.
Qed.

(** X22: a chunk size that is not positive.  [size = 0] is a
    [ValueError] (the step of [range]) for every text, the empty one
    included; a negative [size] raises nothing and returns no chunk at
    all, whatever the text holds. *)
Theorem chunk_text_nonpositive_size text :
  chunk_text text 0 = Raise ValueError ∧
  ∀ size, size < 0 → chunk_text text size = Ok [].
Proof.
  split; [done|]. intros size Hs. unfold chunk_text, py_range.
  rewrite (proj2 (Z.eqb_neq size 0)) by lia.
  destruct (Z.to_nat _) as [|fuel]; [done|]. cbn [range_from].
  rewrite (proj2 (Z.ltb_ge 0 size)) by lia.
  by rewrite (proj2 (Z.ltb_ge _ 0)) by lia.
Qed.

(** X23: chunking keeps the words.  For a positive [size], the words of
    the chunks, read chunk after chunk, are exactly the words of the
    text in their order; every chunk holds between 1 and [size] words and
    every chunk but the last exactly [size], so that the word counts are
    [size, ..., size] followed by the remainder, if any. *)
Theorem chunk_text_keeps_words text size :
  0 < size →
  ∃ chunks,
    chunk_text text size = Ok chunks ∧
    concat (split_ws <$> chunks) = split_ws text ∧
    fixed_size_batches (Z.to_nat size) (split_ws <$> chunks) ∧
    length <$> (split_ws <$> chunks)
    = batch_plan (Z.to_nat size) (length (split_ws text)).
Proof.
  intros Hs. destruct (chunk_text_groups text size Hs) as (G & Hc & Hcat & Hbs & Hsplit).
  exists (join_with space <$> G). rewrite Hsplit. split_and!; [done..|].
  rewrite (batch_lengths (Z.to_nat size) G) by (lia || done). by rewrite Hcat.
Qed.

Lemma chunk_text_keeps_words_witness :
  0 < 2 ∧
  ∃ chunks,
    chunk_text sample_text 2 = Ok chunks ∧
    concat (split_ws <$> chunks) = split_ws sample_text ∧
    fixed_size_batches (Z.to_nat 2) (split_ws <$> chunks) ∧
    length <$> (split_ws <$> chunks)
    = batch_plan (Z.to_nat 2) (length (split_ws sample_text)).
Proof.
  split; [lia|]. apply (chunk_text_keeps_words sample_text 2). lia.
Defined.

Lemma single_group {A} (k : nat) (g : list A) (bs : list (list A)) :
  fixed_size_batches k bs → concat bs = g → (0 < length g ≤ k)%nat → bs = [g].
Proof.
  intros Hbs Hcat Hg. destruct bs as [|g1 [|g2 bs]].
  - cbn in Hcat. subst. cbn in Hg. lia.
  - cbn in Hcat. rewrite app_nil_r in Hcat. by subst.
  - apply fixed_size_batches_cons in Hbs as [Hk [Hall _]].
    apply Forall_cons in Hall as [Hg2 _].
    apply (f_equal length) in Hcat. cbn in Hcat. rewrite !length_app in Hcat. lia.
Qed.

(** X24: what a chunk looks like.  For a positive [size], no chunk is
    empty, every chunk is its own words joined by single spaces (so it
    neither starts nor ends with white space), and chunking a chunk again
    with the same [size] gives back that one chunk. *)
Theorem chunk_text_chunks_are_normal text size chunks chunk :
  0 < size →
  chunk_text text size = Ok chunks →
  chunk ∈ chunks →
  chunk ≠ [] ∧
  join_with space (split_ws chunk) = chunk ∧
  chunk_text chunk size = Ok [chunk].
Proof.
  intros Hs Hc Hin.
  destruct (chunk_text_groups text size Hs) as (G & Hc' & Hcat & Hbs & Hsplit).
  rewrite Hc in Hc'. injection Hc' as ->.
  apply list_elem_of_fmap in Hin as (g & -> & Hg).
  assert (Forall is_word g) as Hw.
  { assert (Forall (Forall is_word) G) as HG
      by (apply Forall_concat; rewrite Hcat; apply split_ws_words).
    rewrite Forall_forall in HG. by apply HG. }
  assert (0 < length g ≤ Z.to_nat size)%nat as Hlen.
  { destruct Hbs as [Hall _]. rewrite Forall_forall in Hall. by apply Hall. }
  split_and!.
  - intros Hnil. apply join_with_nil_inv in Hnil; [|done]. subst. cbn in Hlen. lia.
  - by rewrite split_ws_join_words.
  - destruct (chunk_text_groups (join_with space g) size Hs)
      as (G' & -> & Hcat' & Hbs' & _).
    rewrite split_ws_join_words in Hcat' by done.
    by rewrite (single_group _ _ _ Hbs' Hcat' Hlen).
Qed.

Lemma chunk_text_chunks_are_normal_witness :
  0 < 2 ∧
  chunk_text sample_text 2 = Ok [[97; 32; 98]; [99; 32; 100]; [101]]%N ∧
  ([99; 32; 100]%N ∈ [[97; 32; 98]; [99; 32; 100]; [101]]%N) ∧
  [99; 32; 100]%N ≠ [] ∧
  join_with space (split_ws [99; 32; 100]%N) = [99; 32; 100]%N ∧
  chunk_text [99; 32; 100]%N 2 = Ok [[99; 32; 100]%N].
Proof.
  assert (0 < 2) as Hs by lia.
  assert (chunk_text sample_text 2 = Ok [[97; 32; 98]; [99; 32; 100]; [101]]%N)
    as Hc by reflexivity.
  assert ([99; 32; 100]%N ∈ [[97; 32; 98]; [99; 32; 100]; [101]]%N) as Hin.
  { apply elem_of_cons. right. apply elem_of_cons. by left. }
  split; [exact Hs|]. split; [exact Hc|]. split; [exact Hin|].
  exact (chunk_text_chunks_are_normal sample_text 2 _ _ Hs Hc Hin).
Defined.

(** X25: page breaks never glue words together.  The text extracted from
    a PDF has exactly the words of its pages, page after page (pages
    without text are skipped), and chunking it with a positive [size]
    yields chunks that carry these words in that order. *)
Theorem extracted_text_chunks_keep_page_words pages size :
  0 < size →
  split_ws (extract_text_from_pdf pages) = concat (split_ws <$> omap id pages) ∧
  ∃ chunks,
    chunk_text (extract_text_from_pdf pages) size = Ok chunks ∧
    concat (split_ws <$> chunks) = concat (split_ws <$> omap id pages).
Proof.
  intros Hs.
  assert (split_ws (extract_text_from_pdf pages)
          = concat (split_ws <$> omap id pages)) as Hpages
    by (unfold extract_text_from_pdf, newline; by apply split_ws_join).
  split; [done|].
  destruct (chunk_text_groups (extract_text_from_pdf pages) size Hs)
    as (G & Hc & Hcat & _ & Hsplit).
  exists (join_with space <$> G). rewrite Hsplit, Hcat. done.
Qed.

Lemma extracted_text_chunks_keep_page_words_witness :
  0 < 2 ∧
  split_ws (extract_text_from_pdf [Some [97; 32; 98]; None; Some [99]]%N)
  = [[97]; [98]; [99]]%N.
Proof.
  split; [lia|].
  exact (proj1 (extracted_text_chunks_keep_page_words
                  [Some [97; 32; 98]; None; Some [99]]%N 2 eq_refl)).
Defined.

End Chunking.

(** ** [search_weaviate] *)

Section SearchDemo.
Context (get_vector : string → result value) (do_query : value → Z → result value).

Lemma hit_texts_ok hits texts :
  Forall2 has_text hits texts → hit_texts hits = Ok texts.
Proof.
  induction 1 as [|hit t hits texts (d & -> & Ht) _ IH]; [done|].
  cbn. rewrite Ht. cbn. by rewrite IH.
Qed.

Lemma hit_texts_missing before h after texts :
  Forall2 has_text before texts →
  h !! "text" = None →
  hit_texts (before ++ VDict h :: after) = Raise (KeyError (KStr "text")).
Proof.
  intros Hb Hh. induction Hb as [|hit t hits texts' (d & -> & Ht) _ IH]; cbn.
  - by rewrite Hh.
  - rewrite Ht. cbn. by rewrite IH.
Qed.

(** X26: the demo's search returns the hits' texts as the store ordered
    them, one per hit: there is no re-ranking and no cut beyond the
    store's own limit. *)
Theorem search_weaviate_returns_texts_in_store_order query top_k vector hits texts :
  get_vector query = Ok vector →
  do_query vector top_k = Ok (envelope "DocumentChunk" (VList hits)) →
  Forall2 has_text hits texts →
  search_weaviate get_vector do_query query top_k = Ok texts.
Proof.
  intros Hv Hq Hh. unfold search_weaviate. rewrite Hv. cbn. rewrite Hq. cbn.
  repeat (rewrite lookup_singleton_eq; cbn). by apply hit_texts_ok.
Qed.

(** X27: the demo's search has no handler.  A response without ['data'],
    or a hit without ['text'] after hits that have one, makes
    [search_weaviate] raise the [KeyError] naming that key; no partial
    list of texts is returned. *)
Theorem search_weaviate_missing_key_raises
    query top_k vector result' k before h after texts :
  get_vector query = Ok vector →
  do_query vector top_k = Ok result' →
  (∃ d, result' = VDict d ∧ d !! "data" = None ∧ k = "data") ∨
  (result' = envelope "DocumentChunk" (VList (before ++ VDict h :: after)) ∧
   Forall2 has_text before texts ∧ h !! "text" = None ∧ k = "text") →
  search_weaviate get_vector do_query query top_k = Raise (KeyError (KStr k)).
Proof.
  intros Hv Hq H. unfold search_weaviate. rewrite Hv. cbn. rewrite Hq. cbn.
  destruct H as [(d & -> & Hd & ->)|(-> & Hb & Hh & ->)].
  - cbn. by rewrite Hd.
  - cbn. repeat (rewrite lookup_singleton_eq; cbn).
    by eapply hit_texts_missing.
Qed.

End SearchDemo.

Lemma search_weaviate_returns_texts_in_store_order_witness :
  search_weaviate (fun _ => Ok (VList [VNum 1]))
    (fun _ _ => Ok (envelope "DocumentChunk"
                      (VList [VDict {[ "text" := VStr "b" ]};
                              VDict {[ "text" := VStr "a" ]}])))
    "hello" 5
  = Ok [VStr "b"; VStr "a"].
Proof.
  apply (search_weaviate_returns_texts_in_store_order _ _ "hello" 5 (VList [VNum 1])
           [VDict {[ "text" := VStr "b" ]}; VDict {[ "text" := VStr "a" ]}]).
  - reflexivity.
  - reflexivity.
  - apply List.Forall2_cons; [by eexists|].
    apply List.Forall2_cons; [by eexists|]. apply List.Forall2_nil.
Defined.

Lemma search_weaviate_missing_key_raises_witness :
  search_weaviate (fun _ => Ok (VList [VNum 1]))
    (fun _ _ => Ok (envelope "DocumentChunk"
                      (VList [VDict {[ "text" := VStr "b" ]};
                              VDict {[ "chunk" := VStr "a" ]}])))
    "hello" 5
  = Raise (KeyError (KStr "text")).
Proof.
  apply (search_weaviate_missing_key_raises _ _ "hello" 5 (VList [VNum 1])
           (envelope "DocumentChunk"
              (VList [VDict {[ "text" := VStr "b" ]};
                      VDict {[ "chunk" := VStr "a" ]}])) "text"
           [VDict {[ "text" := VStr "b" ]}] {[ "chunk" := VStr "a" ]} []
           [VStr "b"]).
  - reflexivity.
  - reflexivity.
  - right. split_and!; [reflexivity| |reflexivity|reflexivity].
    apply List.Forall2_cons; [by eexists|]. apply List.Forall2_nil.
Defined.
